(** * Sheet-music scanner: voice classifier, MIDI sequence builder and
      Standard MIDI File encoder

    A shallow embedding of [VoiceClassifier.ts] and [MIDIGenerator.ts].

    TypeScript's [number] is the only numeric type of the program.  The
    functions are therefore written once, over an interface [JSNumber] of
    the operations the source applies to numbers, and the interface has two
    instances:
    - [Q], exact rational arithmetic: every finite [number] is a rational,
      and this is the reading under which the specification speaks of
      "real" times and durations;
    - [float], IEEE 754 binary64 with round-to-nearest-even, which is what a
      JavaScript engine computes; it also has the infinities and NaN.

    Properties that need no law of arithmetic are proved for every
    instance.  Properties about order, rounding to ticks and bytes are
    proved for [Q].  Where exact and binary64 arithmetic part ways, the
    property is evaluated on [float] as well.

    Values are those the TypeScript types admit: an event is a NOTE_ON or
    a NOTE_OFF, a voice is one of the four.  Of the limits of an engine,
    the number of arguments it accepts in one call is modelled, as a
    bound given to the encoder, which passes the track data as the
    arguments of one [push]; memory is not modelled. *)

From Stdlib Require Import ZArith QArith Qround Bool List Ascii String Lia Lqa.
From Stdlib Require Import Permutation Sorted.
From Stdlib Require Import Floats.
Import ListNotations.

Set Implicit Arguments.

(** ** 32-bit integers of the bitwise operators *)

(** [ToInt32] on an integer: reduction modulo 2^32 into [-2^31, 2^31). *)
Definition wrap32 (z : Z) : Z := (z + 2 ^ 31) mod 2 ^ 32 - 2 ^ 31.

(** ** The [number] interface *)

Class JSNumber (N : Type) : Type := {
  of_Z : Z -> N;                  (* an integer literal, an array length *)
  num_add : N -> N -> N;          (* a + b *)
  num_sub : N -> N -> N;          (* a - b *)
  num_mul : N -> N -> N;          (* a * b *)
  num_div : N -> N -> N;          (* a / b *)
  num_ltb : N -> N -> bool;       (* a < b *)
  num_leb : N -> N -> bool;       (* a <= b *)
  num_eqb : N -> N -> bool;       (* a === b *)
  truthy : N -> bool;             (* ToBoolean(a) *)
  Math_round : N -> N;            (* Math.round(a) *)
  ToInt32 : N -> Z                (* the conversion applied by &, | and >> *)
}.

Declare Scope js_scope.
Delimit Scope js_scope with js.
Infix "+" := num_add : js_scope.
Infix "-" := num_sub : js_scope.
Infix "*" := num_mul : js_scope.
Infix "/" := num_div : js_scope.
Infix "<?" := num_ltb : js_scope.
Infix "<=?" := num_leb : js_scope.
Infix "===" := num_eqb (at level 70, no associativity) : js_scope.

(** [a & b] and [a >> b] convert their operands with [ToInt32] and yield a
    32-bit integer, which is again a [number].  [Z.land] is the
    two's-complement operation, so it stays within 32 bits; the shift
    count of [>>] is taken modulo 32. *)
Section Operators.
Context {N : Type} {JSN : JSNumber N}.

Definition js_and (a b : N) : N := of_Z (Z.land (ToInt32 a) (ToInt32 b)).
Definition js_sar (a b : N) : N :=
  of_Z (Z.shiftr (ToInt32 a) (ToInt32 b mod 32)).

(** [a || b] on numbers, and on a property that may be [undefined]. *)
Definition js_or_else (a : option N) (b : N) : N :=
  match a with
  | Some x => if truthy x then x else b
  | None => b
  end.

(** [ToUint8], the conversion of [new Uint8Array(array)]: the integer part
    modulo 2^8. *)
Definition ToUint8 (a : N) : Z := ToInt32 a mod 256.

Definition Uint8Array (bytes : list N) : list Z := map ToUint8 bytes.

(** [Array.prototype.sort(compareFn)].  The sort is stable, and [a] is
    placed after [b] exactly when [compareFn(a, b) > 0]; for a comparator
    that is a consistent ordering the result is determined by these two
    facts, and the stable insertion sort below computes it.  (For an
    inconsistent comparator, such as one that returns NaN, ECMAScript
    leaves the order to the implementation.) *)
Section Sort.
Variable A : Type.
Variable compareFn : A -> A -> N.

Fixpoint sort_insert (x : A) (l : list A) : list A :=
  match l with
  | [] => [x]
  | y :: l' =>
      if num_ltb (of_Z 0) (compareFn x y) then y :: sort_insert x l'
      else x :: l
  end.

Definition Array_sort (l : list A) : list A := fold_right sort_insert [] l.
End Sort.

End Operators.

(** *** Exact rational numbers *)

(** [Qdiv] gives 0 for a zero divisor, where JavaScript gives an infinity
    or NaN: the properties below that divide assume a non-zero divisor or
    do not depend on the quotient. *)

(** Truncation toward zero, the first step of [ToInt32]. *)
Definition Qtrunc (q : Q) : Z := Z.quot (Qnum q) (Zpos (Qden q)).

(** [Math.round]: the nearest integer, a tie going toward +infinity. *)
Definition Qround_half_up (q : Q) : Q := inject_Z (Qfloor (q + (1 # 2))).

#[export] Instance Q_JSNumber : JSNumber Q := {
  of_Z := inject_Z;
  num_add := Qplus;
  num_sub := Qminus;
  num_mul := Qmult;
  num_div := Qdiv;
  num_ltb := fun a b => negb (Qle_bool b a);
  num_leb := Qle_bool;
  num_eqb := Qeq_bool;
  truthy := fun a => negb (Qeq_bool a 0);
  Math_round := Qround_half_up;
  ToInt32 := fun a => wrap32 (Qtrunc a)
}.

(** *** IEEE 754 binary64 *)

(** The double nearest to an integer. *)
Definition float_of_Z (z : Z) : float :=
  SF2Prim (binary_normalize prec emax z 0 false).

(** [Math.round] on a double, computed on its exact value [±m * 2^e]: zeros,
    infinities, NaN and integers are returned as they are. *)
Definition float_round (f : float) : float :=
  match Prim2SF f with
  | S754_finite s m e =>
      if (0 <=? e)%Z then f
      else
        let sm := if s then Zneg m else Zpos m in
        let r := Z.shiftr (2 * sm + 2 ^ (- e)) (- e + 1) in
        if (r =? 0)%Z then (if s then neg_zero else zero) else float_of_Z r
  | _ => f
  end.

(** [ToInt32] on a double: NaN and the infinities give 0. *)
Definition float_ToInt32 (f : float) : Z :=
  match Prim2SF f with
  | S754_finite s m e =>
      let mag := Z.shiftl (Zpos m) e in
      wrap32 (if s then - mag else mag)
  | _ => 0%Z
  end.

#[export] Instance float_JSNumber : JSNumber float := {
  of_Z := float_of_Z;
  num_add := PrimFloat.add;
  num_sub := PrimFloat.sub;
  num_mul := PrimFloat.mul;
  num_div := PrimFloat.div;
  num_ltb := PrimFloat.ltb;
  num_leb := PrimFloat.leb;
  num_eqb := PrimFloat.eqb;
  truthy := fun a => negb (is_nan a || is_zero a);
  Math_round := float_round;
  ToInt32 := float_ToInt32
}.

(** ** VoiceClassifier.ts *)

Module VoiceClassifier.

Inductive Voice : Set := SOPRANO | ALTO | TENOR | BASS.

Section Classifier.
Context {N : Type} {JSN : JSNumber N}.
Local Open Scope js_scope.

Record DetectedNote : Type := {
  pitch : N;                    (* MIDI note number (0-127) *)
  duration : N;                 (* duration in beats *)
  staffPosition : option N;     (* tested against undefined by classifyNote *)
  timestamp : option N;
  confidence : option N
}.

(** [ClassifiedNote extends DetectedNote]; [classifyNote] builds it as
    [{ ...note, voice, channel }]. *)
Record ClassifiedNote : Type := {
  note : DetectedNote;
  voice : Voice;
  channel : N                   (* MIDI channel (0-3 for SATB) *)
}.

Record Range : Type := { min : N; max : N }.

Definition VOICE_RANGES (v : Voice) : Range :=
  match v with
  | SOPRANO => {| min := of_Z 72; max := of_Z 96 |}
  | ALTO => {| min := of_Z 60; max := of_Z 84 |}
  | TENOR => {| min := of_Z 48; max := of_Z 72 |}
  | BASS => {| min := of_Z 36; max := of_Z 60 |}
  end.

Definition VOICE_CHANNELS (v : Voice) : N :=
  match v with
  | SOPRANO => of_Z 0
  | ALTO => of_Z 1
  | TENOR => of_Z 2
  | BASS => of_Z 3
  end.

(** [pitch >= range.min && pitch <= range.max] *)
Definition isInRange (p : N) (range : Range) : bool :=
  (min range <=? p) && (p <=? max range).

(** Returns [Voice | null]; no branch returns null. *)
Definition classifyByStaffPosition (position : N) (preferredVoice : Voice)
  : option Voice :=
  if position <=? of_Z 2 then Some SOPRANO
  else if position <=? of_Z 4 then Some ALTO
  else if position <=? of_Z 7 then Some TENOR
  else Some BASS.

Definition classifyNote (n : DetectedNote) : ClassifiedNote :=
  (* Primary classification: by pitch range *)
  let voice :=
    if isInRange (pitch n) (VOICE_RANGES SOPRANO) then SOPRANO
    else if isInRange (pitch n) (VOICE_RANGES ALTO) then ALTO
    else if isInRange (pitch n) (VOICE_RANGES TENOR) then TENOR
    else BASS in
  (* Secondary refinement: by staff position if available *)
  let voice :=
    match staffPosition n with
    | Some position =>
        match classifyByStaffPosition position voice with
        | Some refinedVoice => refinedVoice
        | None => voice
        end
    | None => voice
    end in
  {| note := n; voice := voice; channel := VOICE_CHANNELS voice |}.

Definition classifyNotes (notes : list DetectedNote) : list ClassifiedNote :=
  map classifyNote notes.

(** [a === b] on voices. *)
Definition sameVoice (a b : Voice) : bool :=
  match a, b with
  | SOPRANO, SOPRANO | ALTO, ALTO | TENOR, TENOR | BASS, BASS => true
  | _, _ => false
  end.

(** Staff line positions, as objects keyed by integers.  A number used as
    a property key names the key [k] exactly when it is [=== k]. *)
Definition TREBLE_NOTE_POSITIONS : list (Z * Z) :=
  [(0, 83); (2, 79); (4, 75); (6, 71); (8, 67); (10, 63);
   (1, 81); (3, 77); (5, 73); (7, 69); (9, 65)]%Z.

Definition BASS_NOTE_POSITIONS : list (Z * Z) :=
  [(0, 71); (2, 67); (4, 63); (6, 59); (8, 55); (10, 51);
   (1, 69); (3, 65); (5, 61); (7, 57); (9, 53)]%Z.

(** [table[position]]: the value under the key, or [undefined]. *)
Definition positionLookup (table : list (Z * Z)) (position : N) : option N :=
  match find (fun kv => position === of_Z (fst kv)) table with
  | Some kv => Some (of_Z (snd kv))
  | None => None
  end.

(** Get pitch from staff position (treble clef). *)
Definition getPitchFromTreblePosition (position : N) : N :=
  js_or_else (positionLookup TREBLE_NOTE_POSITIONS position) (of_Z 60).

(** Get pitch from staff position (bass clef). *)
Definition getPitchFromBassPosition (position : N) : N :=
  js_or_else (positionLookup BASS_NOTE_POSITIONS position) (of_Z 48).

Definition getVoiceRange (v : Voice) : Range := VOICE_RANGES v.

Definition getAllVoices : list Voice := [SOPRANO; ALTO; TENOR; BASS].

(** Get MIDI channel for voice. *)
Definition getChannelForVoice (v : Voice) : N := VOICE_CHANNELS v.

(** Filter notes by voice. *)
Definition getNotesByVoice (notes : list ClassifiedNote) (v : Voice)
  : list ClassifiedNote :=
  filter (fun n => sameVoice (voice n) v) notes.

(** The counting loop of [getDominantVoice]: [voiceCounts[note.voice]++]
    from four zero counts. *)
Definition countVoices (notes : list ClassifiedNote) : Voice -> Z :=
  fold_left
    (fun voiceCounts n =>
       fun v => if sameVoice (voice n) v
                then (voiceCounts v + 1)%Z else voiceCounts v)
    notes (fun _ => 0%Z).

(** What the callback of [reduce] in [getDominantVoice] holds in [a]: an
    entry [[key, count]] of [Object.entries], or a key [b[0]]. *)
Inductive DominantAcc : Type :=
| EntryOf (key : Voice) (count : Z)
| KeyOf (key : Voice).

(** [voiceCounts[a]].  An entry used as a property key is converted to
    the string of its two elements joined by a comma, which is no key
    of [voiceCounts]: the lookup gives [undefined]. *)
Definition countUnder (voiceCounts : Voice -> Z) (a : DominantAcc) : option Z :=
  match a with
  | KeyOf v => Some (voiceCounts v)
  | EntryOf _ _ => None
  end.

(** [x > y] where [y] may be [undefined]: [undefined] converts to NaN, and
    a comparison with NaN is false. *)
Definition gt_maybe (x : Z) (y : option Z) : bool :=
  match y with
  | Some y' => (y' <? x)%Z
  | None => false
  end.

(** Get dominant voice in a sequence:
    [Object.entries(voiceCounts).reduce((a, b) =>
       b[1] > voiceCounts[a] ? b[0] : a)].
    [reduce] has no initial value, so [a] starts as the first entry. *)
Definition getDominantVoice (notes : list ClassifiedNote) : DominantAcc :=
  let voiceCounts := countVoices notes in
  fold_left
    (fun a b =>
       if gt_maybe (snd b) (countUnder voiceCounts a) then KeyOf (fst b) else a)
    [(ALTO, voiceCounts ALTO); (TENOR, voiceCounts TENOR);
     (BASS, voiceCounts BASS)]
    (EntryOf SOPRANO (voiceCounts SOPRANO)).

End Classifier.

Arguments DetectedNote : clear implicits.
Arguments ClassifiedNote : clear implicits.
Arguments Range : clear implicits.

End VoiceClassifier.

(** ** MIDIGenerator.ts *)

Module MIDIGenerator.

Import VoiceClassifier(Voice, SOPRANO, ALTO, TENOR, BASS, ClassifiedNote, note).

Inductive EventType : Set := noteOn | noteOff.

(** How a call ends: with its value, or with a thrown exception. *)
Inductive Completion (A : Type) : Type :=
| Returns (value : A)
| Throws (message : string).

Definition Voice_eqb (a b : Voice) : bool :=
  match a, b with
  | SOPRANO, SOPRANO | ALTO, ALTO | TENOR, TENOR | BASS, BASS => true
  | _, _ => false
  end.

Section Generator.
Context {N : Type} {JSN : JSNumber N}.
Local Open Scope js_scope.

Record MIDIEvent : Type := {
  type : EventType;
  pitch : N;
  velocity : N;
  time : N;
  channel : N;
  duration : option N
}.

(** The [duration] field of the sequence ("total duration in beats") is
    named [totalDuration] here, the name of the local it is built from. *)
Record MIDISequence : Type := {
  tempo : N;                                     (* BPM *)
  events : list MIDIEvent;
  totalDuration : N;
  voices : Voice -> option (list MIDIEvent)      (* [key in Voice]?: MIDIEvent[] *)
}.

Definition DEFAULT_TEMPO : N := of_Z 120.
Definition TICKS_PER_BEAT : N := of_Z 480.
Definition DEFAULT_VELOCITY : N := of_Z 100.
Definition NOTE_OFF_VELOCITY : N := of_Z 0.

(** Helper: convert duration value to beats. *)
Definition durationToBeats (d : N) : N := d.

(** State of the loop of [generateSequence]. *)
Record GenState : Type := {
  gs_events : list MIDIEvent;
  gs_voiceEvents : Voice -> option (list MIDIEvent);
  gs_currentTime : N
}.

(** [if (voiceEvents[v]) { voiceEvents[v].push(...es) }] *)
Definition voicePush (voiceEvents : Voice -> option (list MIDIEvent))
    (v : Voice) (es : list MIDIEvent) : Voice -> option (list MIDIEvent) :=
  match voiceEvents v with
  | Some l => fun v' => if Voice_eqb v v' then Some (l ++ es) else voiceEvents v'
  | None => voiceEvents
  end.

(** One iteration of [for (const note of sortedNotes)]. *)
Definition generateStep (st : GenState) (n : ClassifiedNote N) : GenState :=
  let noteOnTime := gs_currentTime st in
  let noteOffTime :=
    gs_currentTime st + durationToBeats (VoiceClassifier.duration (note n)) in
  let noteOnEvent :=
    {| type := noteOn; pitch := VoiceClassifier.pitch (note n);
       velocity := DEFAULT_VELOCITY; time := noteOnTime;
       channel := VoiceClassifier.channel n;
       duration := Some (VoiceClassifier.duration (note n)) |} in
  let noteOffEvent :=
    {| type := noteOff; pitch := VoiceClassifier.pitch (note n);
       velocity := NOTE_OFF_VELOCITY; time := noteOffTime;
       channel := VoiceClassifier.channel n;
       duration := None |} in
  {| gs_events := gs_events st ++ [noteOnEvent; noteOffEvent];
     gs_voiceEvents :=
       voicePush (gs_voiceEvents st) (VoiceClassifier.voice n)
         [noteOnEvent; noteOffEvent];
     gs_currentTime := noteOffTime |}.

(** [[...notes].sort((a, b) => (a.timestamp || 0) - (b.timestamp || 0))] *)
Definition sortedNotes (notes : list (ClassifiedNote N))
  : list (ClassifiedNote N) :=
  Array_sort
    (fun a b =>
       let timeA := js_or_else (VoiceClassifier.timestamp (note a)) (of_Z 0) in
       let timeB := js_or_else (VoiceClassifier.timestamp (note b)) (of_Z 0) in
       timeA - timeB)
    notes.

Definition generateLoop (notes : list (ClassifiedNote N)) : GenState :=
  fold_left generateStep (sortedNotes notes)
    {| gs_events := [];
       gs_voiceEvents := fun _ => Some [];
       gs_currentTime := of_Z 0 |}.

Definition generateSequence (notes : list (ClassifiedNote N)) (tempo : N)
  : MIDISequence :=
  let st := generateLoop notes in
  (* Sort all events by time *)
  let events := Array_sort (fun a b => time a - time b) (gs_events st) in
  let totalDuration := gs_currentTime st in
  {| tempo := tempo;
     events := events;
     totalDuration := totalDuration;
     voices := gs_voiceEvents st |}.

(** Helper: get channel for voice. *)
Definition getChannelForVoice (v : Voice) : N :=
  match v with
  | SOPRANO => of_Z 0
  | ALTO => of_Z 1
  | TENOR => of_Z 2
  | BASS => of_Z 3
  end.

Definition getVoiceEvents (sequence : MIDISequence) (v : Voice)
  : list MIDIEvent :=
  match voices sequence v with Some l => l | None => [] end.

(** Mute/unmute voice by modifying velocity. *)
Definition muteVoice (sequence : MIDISequence) (v : Voice) : MIDISequence :=
  {| tempo := tempo sequence;
     events :=
       map (fun event =>
              if channel event === getChannelForVoice v then
                {| type := type event; pitch := pitch event;
                   velocity := of_Z 0; time := time event;
                   channel := channel event; duration := duration event |}
              else event)
           (events sequence);
     totalDuration := totalDuration sequence;
     voices := voices sequence |}.

(** Adjust tempo. *)
Definition adjustTempo (sequence : MIDISequence) (newTempo : N)
  : MIDISequence :=
  let tempoRatio := tempo sequence / newTempo in
  {| tempo := newTempo;
     totalDuration := totalDuration sequence * tempoRatio;
     events :=
       map (fun event =>
              {| type := type event; pitch := pitch event;
                 velocity := velocity event;
                 time := time event * tempoRatio;
                 channel := channel event;
                 duration :=
                   match duration event with
                   | Some d => if truthy d then Some (d * tempoRatio) else Some d
                   | None => None
                   end |})
           (events sequence);
     voices := voices sequence |}.

(** Helper: convert string to bytes,
    [str.split('').map((c) => c.charCodeAt(0))]. *)
Definition stringToBytes (str : string) : list N :=
  map (fun c => of_Z (Z.of_nat (nat_of_ascii c))) (list_ascii_of_string str).

(** Helper: convert number to bytes.  The loop runs [i] from [length - 1]
    down to 0 and puts each byte in front with [unshift]; [i1] is [i + 1]. *)
Fixpoint numberToBytes_loop (num : N) (i1 : nat) (bytes : list N) : list N :=
  match i1 with
  | O => bytes
  | S i =>
      numberToBytes_loop num i
        (js_and (js_sar num (of_Z (Z.of_nat i * 8))) (of_Z 255) :: bytes)
  end.

Definition numberToBytes (num : N) (length : nat) : list N :=
  numberToBytes_loop num length [].

(** Helper: variable length quantity (MIDI format).  After the first
    [value >>= 7] the value is a 32-bit integer, and the loop is written on
    integers.  Each pass removes seven bits of at most 24, so the loop
    body runs at most four times; [variableLengthQuantity_loop_fuel]
    below shows the bound of five is never reached. *)
Fixpoint variableLengthQuantity_loop (fuel : nat) (value : Z) (bytes : list Z)
  : list Z :=
  match fuel with
  | O => bytes
  | S fuel' =>
      if (0 <? value)%Z then
        variableLengthQuantity_loop fuel' (Z.shiftr value 7)
          (Z.lor (Z.land value 127) 128 :: bytes)
      else bytes
  end.

Definition variableLengthQuantity (value : N) : list N :=
  let v := ToInt32 value in
  let bytes := [Z.land v 127] in
  let v := Z.shiftr v 7 in
  map of_Z (variableLengthQuantity_loop 5 v bytes).

(** Helper: meta event. *)
Definition metaEvent (type : N) (data : list N) : list N :=
  [of_Z 255; type] ++ [of_Z (Z.of_nat (List.length data))] ++ data.

(** The inter-event delta of [sequenceToMidiBytes]:
    [Math.round(event.time - lastTime) * 4]. *)
Definition deltaTime (event : MIDIEvent) (lastTime : N) : N :=
  Math_round (time event - lastTime) * of_Z 4.

(** One iteration of [for (const event of events)] over the pair of
    [trackData] and [lastTime]. *)
Definition encodeStep (st : list N * N) (event : MIDIEvent) : list N * N :=
  let (trackData, lastTime) := st in
  let trackData := trackData ++ variableLengthQuantity (deltaTime event lastTime) in
  let trackData :=
    match type event with
    | noteOn =>
        trackData ++ [of_Z 144 + channel event; pitch event; velocity event]
    | noteOff =>
        trackData ++ [of_Z 128 + channel event; pitch event; velocity event]
    end in
  (trackData, time event).

(** The track data of [sequenceToMidiBytes]: the tempo meta event, the
    events, the end-of-track meta event. *)
Definition trackDataOf (sequence : MIDISequence) : list N :=
  let tempoData :=
    numberToBytes (Math_round (of_Z 60000000 / tempo sequence)) 3 in
  let trackData := metaEvent (of_Z 81) tempoData in
  let (trackData, _) :=
    fold_left encodeStep (events sequence) (trackData, of_Z 0) in
  trackData ++ metaEvent (of_Z 47) [].

(** Convert MIDI sequence to raw MIDI bytes. *)
Definition sequenceToMidiBytes (sequence : MIDISequence) : list Z :=
  let bytes := stringToBytes "MThd" in
  let bytes := bytes ++ [of_Z 0; of_Z 0; of_Z 0; of_Z 6] in
  let bytes := bytes ++ [of_Z 0; of_Z 0] in
  let bytes := bytes ++ [of_Z 0; of_Z 1] in
  let tpq := TICKS_PER_BEAT in
  let bytes :=
    bytes ++ [js_and (js_sar tpq (of_Z 8)) (of_Z 255); js_and tpq (of_Z 255)] in
  let trackData := trackDataOf sequence in
  let bytes := bytes ++ stringToBytes "MTrk" in
  let trackLength := of_Z (Z.of_nat (List.length trackData)) in
  let bytes :=
    bytes ++ [js_and (js_sar trackLength (of_Z 24)) (of_Z 255);
              js_and (js_sar trackLength (of_Z 16)) (of_Z 255);
              js_and (js_sar trackLength (of_Z 8)) (of_Z 255);
              js_and trackLength (of_Z 255)] in
  let bytes := bytes ++ trackData in
  Uint8Array bytes.

(** How the call of [sequenceToMidiBytes] ends.  The function has no
    [throw] and no test on a pitch, a velocity or a time.  What can end
    it early is [array.push(...items)]: the items are the arguments of
    one call, an engine accepts only so many arguments in a call, and it
    throws a RangeError beyond.  That bound, [maxArguments], belongs to
    the engine and not to the language.  The calls of [push] that name
    their arguments have at most four and are taken to return. *)
Definition andThen {A B : Type} (c : Completion A) (f : A -> Completion B)
  : Completion B :=
  match c with
  | Returns a => f a
  | Throws _ message => Throws B message
  end.

Definition push_spread (maxArguments : Z) (array items : list N)
  : Completion (list N) :=
  if (Z.of_nat (List.length items) <=? maxArguments)%Z
  then Returns (array ++ items)
  else Throws (list N) "RangeError".

(** One iteration of [for (const event of events)], which is left when
    an iteration throws. *)
Definition encodeStep_completion (maxArguments : Z)
    (st : Completion (list N * N)) (event : MIDIEvent)
  : Completion (list N * N) :=
  andThen st (fun st =>
    let (trackData, lastTime) := st in
    andThen
      (push_spread maxArguments trackData
         (variableLengthQuantity (deltaTime event lastTime)))
      (fun trackData =>
         let trackData :=
           match type event with
           | noteOn =>
               trackData
               ++ [of_Z 144 + channel event; pitch event; velocity event]
           | noteOff =>
               trackData
               ++ [of_Z 128 + channel event; pitch event; velocity event]
           end in
         Returns (trackData, time event))).

(** [sequenceToMidiBytes], statement by statement. *)
Definition sequenceToMidiBytes_completion (maxArguments : Z)
    (sequence : MIDISequence) : Completion (list Z) :=
  andThen (push_spread maxArguments [] (stringToBytes "MThd")) (fun bytes =>
  let bytes := bytes ++ [of_Z 0; of_Z 0; of_Z 0; of_Z 6] in
  let bytes := bytes ++ [of_Z 0; of_Z 0] in
  let bytes := bytes ++ [of_Z 0; of_Z 1] in
  let tpq := TICKS_PER_BEAT in
  let bytes :=
    bytes ++ [js_and (js_sar tpq (of_Z 8)) (of_Z 255); js_and tpq (of_Z 255)] in
  let tempoData :=
    numberToBytes (Math_round (of_Z 60000000 / tempo sequence)) 3 in
  andThen (push_spread maxArguments [] (metaEvent (of_Z 81) tempoData))
    (fun trackData =>
  andThen
    (fold_left (encodeStep_completion maxArguments) (events sequence)
       (Returns (trackData, of_Z 0)))
    (fun st =>
  andThen (push_spread maxArguments (fst st) (metaEvent (of_Z 47) []))
    (fun trackData =>
  andThen (push_spread maxArguments bytes (stringToBytes "MTrk")) (fun bytes =>
  let trackLength := of_Z (Z.of_nat (List.length trackData)) in
  let bytes :=
    bytes ++ [js_and (js_sar trackLength (of_Z 24)) (of_Z 255);
              js_and (js_sar trackLength (of_Z 16)) (of_Z 255);
              js_and (js_sar trackLength (of_Z 8)) (of_Z 255);
              js_and trackLength (of_Z 255)] in
  andThen (push_spread maxArguments bytes trackData) (fun bytes =>
  Returns (Uint8Array bytes))))))).

(** [{ ...note, timestamp: t }] *)
Definition withTimestamp (t : N) (n : ClassifiedNote N) : ClassifiedNote N :=
  {| VoiceClassifier.note :=
       {| VoiceClassifier.pitch := VoiceClassifier.pitch (note n);
          VoiceClassifier.duration := VoiceClassifier.duration (note n);
          VoiceClassifier.staffPosition :=
            VoiceClassifier.staffPosition (note n);
          VoiceClassifier.timestamp := Some t;
          VoiceClassifier.confidence := VoiceClassifier.confidence (note n) |};
     VoiceClassifier.voice := VoiceClassifier.voice n;
     VoiceClassifier.channel := VoiceClassifier.channel n |}.

(** [notes.map((note, index) => ({ ...note,
      timestamp: startTime + index * (note.duration || 1) }))],
    from the index [index] on. *)
Fixpoint timedNotesFrom (index : nat) (startTime : N)
    (notes : list (ClassifiedNote N)) : list (ClassifiedNote N) :=
  match notes with
  | [] => []
  | n :: notes' =>
      withTimestamp
        (startTime
         + of_Z (Z.of_nat index)
           * js_or_else (Some (VoiceClassifier.duration (note n))) (of_Z 1))
        n
      :: timedNotesFrom (S index) startTime notes'
  end.

(** Generate MIDI sequence with timing information. *)
Definition generateSequenceWithTiming (notes : list (ClassifiedNote N))
    (startTime : N) (tempo : N) : MIDISequence :=
  let timedNotes := timedNotesFrom 0 startTime notes in
  generateSequence timedNotes tempo.

(** Get events for multiple voices: the loop pushes the events of each
    voice in turn, and the result is sorted by time. *)
Definition getMultiVoiceEvents (sequence : MIDISequence) (vs : list Voice)
  : list MIDIEvent :=
  let events :=
    fold_left (fun events v => events ++ getVoiceEvents sequence v) vs [] in
  Array_sort (fun a b => time a - time b) events.

End Generator.

Arguments MIDIEvent : clear implicits.
Arguments MIDISequence : clear implicits.
Arguments GenState : clear implicits.

End MIDIGenerator.

(** ** ImagePreprocessor.ts: patch filtering and batching *)

Module ImagePreprocessor.

Section Patches.
Context {N : Type} {JSN : JSNumber N}.
(** The pixel tensor of a patch, which this code stores and stacks but
    never reads. *)
Variable Tensor : Type.
Local Open Scope js_scope.

Record ImagePatch : Type := {
  data : Tensor;
  x : N;               (* position in original image *)
  y : N;
  confidence : N       (* confidence that patch contains a note *)
}.

(** Filter patches by confidence threshold. *)
Definition filterPatches (patches : list ImagePatch) (confidenceThreshold : N)
  : list ImagePatch :=
  filter (fun patch => confidenceThreshold <=? confidence patch) patches.

(** [patches.slice(from, to)] for indices within the array. *)
Definition slice (from to : nat) (patches : list ImagePatch)
  : list ImagePatch :=
  firstn (to - from) (skipn from patches).

(** Process patch batch for model inference:
    [for (let i = 0; i < patches.length; i += batchSize)].  A batch is the
    stack of the tensors of its patches, in order.  For a batch size of
    at least 1 the loop body runs at most [patches.length] times, which
    is the fuel [batchPatches] gives; for a batch size of 0 the loop of
    the source never ends, and nothing below speaks of that case. *)
Fixpoint batchLoop (fuel : nat) (i batchSize : nat)
    (patches : list ImagePatch) (batches : list (list Tensor))
  : list (list Tensor) :=
  match fuel with
  | O => batches
  | S fuel' =>
      if (i <? List.length patches)%nat then
        let batch :=
          slice i (Nat.min (i + batchSize) (List.length patches)) patches in
        batchLoop fuel' (i + batchSize) batchSize patches
          (batches ++ [map data batch])
      else batches
  end.

Definition batchPatches (patches : list ImagePatch) (batchSize : nat)
  : list (list Tensor) :=
  batchLoop (List.length patches) 0 batchSize patches [].

End Patches.

Arguments ImagePatch : clear implicits.

End ImagePreprocessor.

(** ** OCRPipeline.ts: from model outputs to the sequence *)

Module OCRPipeline.

Section Pipeline.
Context {N : Type} {JSN : JSNumber N}.
Local Open Scope js_scope.

Record PipelineOptions : Type := {
  confidenceThreshold : option N;
  minDuration : option N;
  maxDuration : option N;
  tempo : option N
}.

(** Convert model output index to MIDI pitch.  Indices and lengths are
    integers; [%] takes the sign of the dividend, as [Z.rem] does. *)
Definition outputToPitch (index totalOutputs : Z) : Z :=
  let minMIDI := 36%Z in
  let maxMIDI := 96%Z in
  let totalNotes := (maxMIDI - minMIDI + 1)%Z in
  (minMIDI + Z.rem index totalNotes)%Z.

(** The loop of [runInference] over the predictions of one batch, from
    index [i] on; [total] is [predictionData.length].  A detection is
    pushed with its pitch, confidence and duration; the fields [x] and
    [y], which are 0 and which nothing reads, are left out. *)
Fixpoint detectionsFrom (options : PipelineOptions) (i : nat) (total : Z)
    (predictionData : list N) : list (VoiceClassifier.DetectedNote N) :=
  match predictionData with
  | [] => []
  | confidence :: rest =>
      let pushed :=
        if js_or_else (confidenceThreshold options) (of_Z 1 / of_Z 2)
             <=? confidence
        then
          [ {| VoiceClassifier.pitch :=
                 of_Z (outputToPitch (Z.of_nat i) total);
               VoiceClassifier.duration :=
                 js_or_else (minDuration options) (of_Z 100);
               VoiceClassifier.staffPosition := None;
               VoiceClassifier.timestamp := None;
               VoiceClassifier.confidence := Some confidence |} ]
        else [] in
      pushed ++ detectionsFrom options (S i) total rest
  end.

Definition detectionsOf (options : PipelineOptions) (predictionData : list N)
  : list (VoiceClassifier.DetectedNote N) :=
  detectionsFrom options 0 (Z.of_nat (List.length predictionData))
    predictionData.

(** [runInference], given what [predict] yields for each batch: its
    prediction data, or nothing when the call throws, in which case the
    batch is skipped. *)
Definition runInference (options : PipelineOptions)
    (predictions : list (option (list N)))
  : list (VoiceClassifier.DetectedNote N) :=
  fold_left
    (fun detectedNotes prediction =>
       match prediction with
       | Some predictionData =>
           detectedNotes ++ detectionsOf options predictionData
       | None => detectedNotes
       end)
    predictions [].

(** Steps 3 and 4 of [processImage]: classification, then generation at
    [options.tempo || 120]. *)
Definition sequenceOf (options : PipelineOptions)
    (detectedNotes : list (VoiceClassifier.DetectedNote N))
  : MIDIGenerator.MIDISequence N :=
  MIDIGenerator.generateSequence
    (VoiceClassifier.classifyNotes detectedNotes)
    (js_or_else (tempo options) (of_Z 120)).

End Pipeline.

Arguments PipelineOptions : clear implicits.

End OCRPipeline.

(** ** SoundFontPlayer.ts: the voice configurations *)

Module SoundFontPlayer.

Import VoiceClassifier(Voice, SOPRANO, ALTO, TENOR, BASS, sameVoice).

Record VoiceConfig : Type := {
  voice : Voice;
  instrument : option string;
  volume : option Q;
  isMuted : option bool
}.

(** [Map<Voice, VoiceConfig>] *)
Definition VoiceConfigs : Type := Voice -> option VoiceConfig.

(** [map.set(key, config)] *)
Definition mapSet (configs : VoiceConfigs) (key : Voice) (config : VoiceConfig)
  : VoiceConfigs :=
  fun v => if sameVoice key v then Some config else configs v.

Definition voiceInstruments (v : Voice) : string :=
  match v with
  | SOPRANO => "violin"
  | ALTO => "viola"
  | TENOR => "cello"
  | BASS => "contrabass"
  end.

(** Initialize voice-specific configurations, from the empty map. *)
Definition initializeVoiceConfigs : VoiceConfigs :=
  fold_left
    (fun configs v =>
       mapSet configs v
         {| voice := v; instrument := Some (voiceInstruments v);
            volume := Some 0%Q; isMuted := Some false |})
    [SOPRANO; ALTO; TENOR; BASS] (fun _ => None).

(** [ToBoolean] of a flag that may be [undefined]. *)
Definition flag (b : option bool) : bool :=
  match b with Some true => true | _ => false end.

(** [Math.min(a, b)] and [Math.max(a, b)] on exact numbers. *)
Definition Math_min (a b : Q) : Q := if Qle_bool a b then a else b.
Definition Math_max (a b : Q) : Q := if Qle_bool a b then b else a.

(** The methods below change the configuration the map holds for the
    voice, when it holds one; the object is reached through the map
    only, so the change is a change of the map. *)
Definition withMuted (m : bool) (config : VoiceConfig) : VoiceConfig :=
  {| voice := voice config; instrument := instrument config;
     volume := volume config; isMuted := Some m |}.

Definition withVolume (x : Q) (config : VoiceConfig) : VoiceConfig :=
  {| voice := voice config; instrument := instrument config;
     volume := Some x; isMuted := isMuted config |}.

(** Mute voice. *)
Definition muteVoice (configs : VoiceConfigs) (v : Voice) : VoiceConfigs :=
  match configs v with
  | Some config => mapSet configs v (withMuted true config)
  | None => configs
  end.

(** Unmute voice. *)
Definition unmuteVoice (configs : VoiceConfigs) (v : Voice) : VoiceConfigs :=
  match configs v with
  | Some config => mapSet configs v (withMuted false config)
  | None => configs
  end.

(** Toggle voice mute: the new state, and the value returned. *)
Definition toggleVoiceMute (configs : VoiceConfigs) (v : Voice)
  : VoiceConfigs * bool :=
  match configs v with
  | Some config =>
      let m := negb (flag (isMuted config)) in
      (mapSet configs v (withMuted m config), m)
  | None => (configs, false)
  end.

(** Set voice volume (0-1). *)
Definition setVoiceVolume (configs : VoiceConfigs) (v : Voice) (x : Q)
  : VoiceConfigs :=
  match configs v with
  | Some config =>
      mapSet configs v (withVolume (Math_max 0 (Math_min 1 x)) config)
  | None => configs
  end.

(** Get voice mute status: [config?.isMuted || false]. *)
Definition isVoiceMuted (configs : VoiceConfigs) (v : Voice) : bool :=
  match configs v with
  | Some config => flag (isMuted config)
  | None => false
  end.

(** Get voice volume: [config?.volume || 0]. *)
Definition getVoiceVolume (configs : VoiceConfigs) (v : Voice) : Q :=
  match configs v with
  | Some config => js_or_else (volume config) 0%Q
  | None => 0%Q
  end.

(** Helper: get voice config by MIDI channel.  [channelToVoice] has the
    keys 0 to 3; a voice name is a non-empty string, hence truthy. *)
Definition channelToVoice (channel : Q) : option Voice :=
  match find (fun kv => Qeq_bool channel (inject_Z (fst kv)))
             [(0%Z, SOPRANO); (1%Z, ALTO); (2%Z, TENOR); (3%Z, BASS)] with
  | Some kv => Some (snd kv)
  | None => None
  end.

Definition getVoiceConfigByChannel (configs : VoiceConfigs) (channel : Q)
  : option VoiceConfig :=
  match channelToVoice channel with
  | Some v => configs v
  | None => None
  end.

End SoundFontPlayer.

(** * Vocabulary of the properties *)

(** ** Events and bytes, in either arithmetic *)

Section Vocabulary.
Import MIDIGenerator.
Import VoiceClassifier(Voice, DetectedNote, ClassifiedNote, note).
Context {N : Type} {JSN : JSNumber N}.
Local Open Scope js_scope.

(** The detection [n] with its pitch replaced. *)
Definition withPitch (p : N) (n : DetectedNote N) : DetectedNote N :=
  {| VoiceClassifier.pitch := p;
     VoiceClassifier.duration := VoiceClassifier.duration n;
     VoiceClassifier.staffPosition := VoiceClassifier.staffPosition n;
     VoiceClassifier.timestamp := VoiceClassifier.timestamp n;
     VoiceClassifier.confidence := VoiceClassifier.confidence n |}.

(** Clamping to the nearest bound of [0,127], as the specification words it. *)
Definition clampPitch (p : N) : N :=
  if p <? of_Z 0 then of_Z 0 else if of_Z 127 <? p then of_Z 127 else p.

(** The two events of a note that starts at time [t] and ends at [t']. *)
Definition noteOnAt (n : ClassifiedNote N) (t : N) : MIDIEvent N :=
  {| type := noteOn; pitch := VoiceClassifier.pitch (note n);
     velocity := of_Z 100; time := t;
     channel := VoiceClassifier.channel n;
     duration := Some (VoiceClassifier.duration (note n)) |}.

Definition noteOffAt (n : ClassifiedNote N) (t' : N) : MIDIEvent N :=
  {| type := noteOff; pitch := VoiceClassifier.pitch (note n);
     velocity := of_Z 0; time := t';
     channel := VoiceClassifier.channel n;
     duration := None |}.

(** The running cursor: it starts at [c] and advances by the duration of
    each note; [cursors c ns] lists its value before each note of [ns]. *)
Fixpoint cursors (c : N) (ns : list (ClassifiedNote N)) : list N :=
  match ns with
  | [] => []
  | n :: ns' => c :: cursors (c + VoiceClassifier.duration (note n)) ns'
  end.

Definition notePair (nc : ClassifiedNote N * N) : list (MIDIEvent N) :=
  let (n, c) := nc in
  [noteOnAt n c; noteOffAt n (c + VoiceClassifier.duration (note n))].

Definition layout (c : N) (ns : list (ClassifiedNote N)) : list (MIDIEvent N) :=
  flat_map notePair (combine ns (cursors c ns)).

(** The velocity the builder gives to an event of each kind. *)
Definition builtVelocity (e : MIDIEvent N) : Prop :=
  velocity e = match type e with
               | noteOn => of_Z 100
               | noteOff => of_Z 0
               end.

(** What [muteVoice] does to one event [e], giving [e']. *)
Definition mutedAs (v : Voice) (e e' : MIDIEvent N) : Prop :=
  type e' = type e /\ pitch e' = pitch e /\ time e' = time e /\
  channel e' = channel e /\ duration e' = duration e /\
  (if channel e === getChannelForVoice v
   then velocity e' = of_Z 0
   else e' = e).

(** The status byte of an event, before its conversion to a byte. *)
Definition statusOf (e : MIDIEvent N) : N :=
  match type e with
  | noteOn => of_Z 144 + channel e
  | noteOff => of_Z 128 + channel e
  end.

(** What the loop of [sequenceToMidiBytes] appends for a list of events
    when the previous event was at [lastTime]. *)
Fixpoint eventStream (lastTime : N) (evs : list (MIDIEvent N)) : list N :=
  match evs with
  | [] => []
  | e :: evs' =>
      variableLengthQuantity (deltaTime e lastTime)
        ++ [statusOf e; pitch e; velocity e]
        ++ eventStream (time e) evs'
  end.

End Vocabulary.

(** ** Byte strings *)

Section ByteStrings.
Local Open Scope Z_scope.

(** Big-endian bytes of a non-negative integer, and their value. *)
Fixpoint big_endian (width : nat) (z : Z) : list Z :=
  match width with
  | O => []
  | S w => (z / 256 ^ Z.of_nat w) mod 256 :: big_endian w z
  end.

Definition big_endian_value (bytes : list Z) : Z :=
  fold_left (fun acc b => acc * 256 + b) bytes 0.

(** The character codes of a string. *)
Definition char_codes (str : string) : list Z :=
  map (fun c => Z.of_nat (nat_of_ascii c)) (list_ascii_of_string str).

(** The value of a variable-length quantity: seven bits per byte, the
    most significant byte first. *)
Definition vlq_value (bytes : list Z) : Z :=
  fold_left (fun acc b => acc * 128 + b mod 128) bytes 0.

(** The continuation bit is set on every byte but the last. *)
Definition vlq_continued (bytes : list Z) : Prop :=
  exists init final,
    bytes = init ++ [final] /\
    Forall (fun b => 128 <= b < 256) init /\ 0 <= final < 128.

End ByteStrings.

(** ** Sample inputs *)

Section Samples.
Import MIDIGenerator.
Import VoiceClassifier(Voice, DetectedNote, ClassifiedNote).

(** A detection that has a pitch and a duration only, as the pipeline
    produces them. *)
Definition detection (p d : Q) : DetectedNote Q :=
  {| VoiceClassifier.pitch := p;
     VoiceClassifier.duration := d;
     VoiceClassifier.staffPosition := None;
     VoiceClassifier.timestamp := None;
     VoiceClassifier.confidence := None |}.

(** The primary classification, as a function of the pitch alone. *)
Definition primaryVoice (p : Q) : Voice :=
  VoiceClassifier.voice (VoiceClassifier.classifyNote (detection p 0)).

Definition detection_72 : DetectedNote Q := detection 72 1.

Definition detection_200 : DetectedNote Q := detection 200 1.

(** Three notes of pitches 72, 65 and 48 and durations 1, 1 and 2. *)
Definition three_notes : list (ClassifiedNote Q) :=
  VoiceClassifier.classifyNotes
    [detection 72 1; detection 65 1; detection 48 2].

(** A note of pitch 60 whose duration is 0. *)
Definition zero_length_note : ClassifiedNote Q :=
  VoiceClassifier.classifyNote (detection 60 0).

(** One event at time 3, in a sequence at 120 BPM. *)
Definition one_event_sequence {N : Type} {JSN : JSNumber N} : MIDISequence N :=
  {| tempo := of_Z 120;
     events := [ {| type := noteOn; pitch := of_Z 60; velocity := of_Z 100;
                    time := of_Z 3; channel := of_Z 1; duration := None |} ];
     totalDuration := of_Z 3;
     voices := fun _ => Some [] |}.

(** One quarter note of pitch 60 on channel 1, at 120 BPM: a NOTE_ON at
    beat 0 and a NOTE_OFF at beat 1. *)
Definition quarter_note_sequence : MIDISequence Q :=
  {| tempo := 120%Q;
     events := [ {| type := noteOn; pitch := 60%Q; velocity := 100%Q;
                    time := 0%Q; channel := 1%Q; duration := Some 1%Q |};
                 {| type := noteOff; pitch := 60%Q; velocity := 0%Q;
                    time := 1%Q; channel := 1%Q; duration := None |} ];
     totalDuration := 1%Q;
     voices := fun _ => Some [] |}.

(** A sequence that breaks every upstream invariant: pitch 200 and velocity
    300, and a NOTE_OFF one beat before its NOTE_ON. *)
Definition broken_sequence : MIDISequence Q :=
  {| tempo := 120%Q;
     events := [ {| type := noteOn; pitch := 200%Q; velocity := 300%Q;
                    time := 2%Q; channel := 0%Q; duration := Some 1%Q |};
                 {| type := noteOff; pitch := 200%Q; velocity := 0%Q;
                    time := 1%Q; channel := 0%Q; duration := None |} ];
     totalDuration := 2%Q;
     voices := fun _ => Some [] |}.

End Samples.

(** ** Layouts, orders and detections *)

Section Layouts.
Import OCRPipeline.
Import MIDIGenerator.
Import VoiceClassifier(Voice, ClassifiedNote, DetectedNote, note).

Section AnyNumber.
Context {N : Type} {JSN : JSNumber N}.

(** The events of the notes of one voice, laid out along the cursor that
    runs over all the notes. *)
Definition voiceLayout (v : Voice) (c : N) (ns : list (ClassifiedNote N))
  : list (MIDIEvent N) :=
  flat_map
    (fun nc => if Voice_eqb (VoiceClassifier.voice (fst nc)) v
               then notePair nc else [])
    (combine ns (cursors c ns)).

End AnyNumber.

(** The key the notes are sorted by: [note.timestamp || 0]. *)
Definition timestampKey (n : ClassifiedNote Q) : Q :=
  js_or_else (VoiceClassifier.timestamp (note n)) 0%Q.

(** Where the cursor stands after the notes [ns], from [c]. *)
Definition endCursor (c : Q) (ns : list (ClassifiedNote Q)) : Q :=
  fold_left (fun c n => (c + VoiceClassifier.duration (note n))%Q) ns c.

Definition nonNegative (n : ClassifiedNote Q) : Prop :=
  (0 <= VoiceClassifier.duration (note n))%Q.

(** The same note, with a timestamp later by [shift]. *)
Definition shifted (shift : Q) (n n' : ClassifiedNote Q) : Prop :=
  VoiceClassifier.pitch (note n) = VoiceClassifier.pitch (note n') /\
  VoiceClassifier.duration (note n) = VoiceClassifier.duration (note n') /\
  VoiceClassifier.channel n = VoiceClassifier.channel n' /\
  VoiceClassifier.voice n = VoiceClassifier.voice n' /\
  (timestampKey n == shift + timestampKey n')%Q.

(** Equality of optional numbers up to equality of rationals. *)
Definition sameOption (a b : option Q) : Prop :=
  match a, b with
  | Some x, Some y => (x == y)%Q
  | None, None => True
  | _, _ => False
  end.

(** The same event, up to equality of rationals in time and duration. *)
Definition sameEvent (e e' : MIDIEvent Q) : Prop :=
  type e' = type e /\ pitch e' = pitch e /\ velocity e' = velocity e /\
  channel e' = channel e /\ (time e' == time e)%Q /\
  sameOption (duration e') (duration e).

(** The threshold and the duration in force: the configured value, or
    0.5 and 100 when it is missing or 0. *)
Definition thresholdOf (options : PipelineOptions Q) : Q :=
  js_or_else (confidenceThreshold options) (1 # 2).

Definition durationOf (options : PipelineOptions Q) : Q :=
  js_or_else (minDuration options) 100%Q.

(** What every detection of the pipeline looks like. *)
Definition detected (options : PipelineOptions Q) (d : DetectedNote Q) : Prop :=
  (exists c, VoiceClassifier.confidence d = Some c /\ (thresholdOf options <= c)%Q) /\
  (exists p, VoiceClassifier.pitch d = inject_Z p /\ (36 <= p <= 96)%Z) /\
  VoiceClassifier.duration d = durationOf options /\
  VoiceClassifier.staffPosition d = None /\
  VoiceClassifier.timestamp d = None.

(** The detection pushed for the confidence found at index [fst ic] of
    the predictions of a batch. *)
Definition detectionAt (options : PipelineOptions Q) (ic : nat * Q)
  : DetectedNote Q :=
  {| VoiceClassifier.pitch := inject_Z (36 + Z.of_nat (fst ic) mod 61);
     VoiceClassifier.duration := durationOf options;
     VoiceClassifier.staffPosition := None;
     VoiceClassifier.timestamp := None;
     VoiceClassifier.confidence := Some (snd ic) |}.

(** A pitch of 40 drawn on the top line of the staff. *)
Definition low_pitch_top_line : DetectedNote Q :=
  {| VoiceClassifier.pitch := 40; VoiceClassifier.duration := 1;
     VoiceClassifier.staffPosition := Some 0%Q;
     VoiceClassifier.timestamp := None; VoiceClassifier.confidence := None |}.

(** The default options, and three batches of which the second fails. *)
Definition default_options : PipelineOptions Q :=
  {| OCRPipeline.confidenceThreshold := Some (1 # 2);
     OCRPipeline.minDuration := Some 100%Q;
     OCRPipeline.maxDuration := Some 4000%Q;
     OCRPipeline.tempo := Some 120%Q |}.

Definition three_batches : list (option (list Q)) :=
  [Some [9 # 10; 1 # 10; 7 # 10]; None; Some [2 # 10; 6 # 10]].

End Layouts.

(** ** Sample inputs in binary64 *)

Section SamplesBinary64.
Import VoiceClassifier(DetectedNote, ClassifiedNote).

Definition detection_binary64 (p d : float) : DetectedNote float :=
  {| VoiceClassifier.pitch := p;
     VoiceClassifier.duration := d;
     VoiceClassifier.staffPosition := None;
     VoiceClassifier.timestamp := None;
     VoiceClassifier.confidence := None |}.

(** A note of 2^53 beats, then a note of one beat. *)
Definition long_then_short : list (ClassifiedNote float) :=
  VoiceClassifier.classifyNotes
    [detection_binary64 60 9007199254740992; detection_binary64 62 1].

(** Notes of pitches 60, 61 and 62 and durations 1, 3 and 1. *)
Definition uneven_notes : list (ClassifiedNote float) :=
  VoiceClassifier.classifyNotes
    [detection_binary64 60 1; detection_binary64 61 3; detection_binary64 62 1].

(** The double nearest to one tenth. *)
Definition tenth : float := 0x1.999999999999ap-4%float.

(** A note duration of a tenth, and one batch of seven confident
    predictions. *)
Definition tenth_options : OCRPipeline.PipelineOptions float :=
  {| OCRPipeline.confidenceThreshold := None;
     OCRPipeline.minDuration := Some tenth;
     OCRPipeline.maxDuration := None;
     OCRPipeline.tempo := None |}.

Definition seven_predictions : list (option (list float)) :=
  [Some [1; 1; 1; 1; 1; 1; 1]%float].

End SamplesBinary64.

(** * Properties *)

(** ** Exact arithmetic: booleans of the [Q] instance as propositions *)

Lemma Q_leb_true (a b : Q) : num_leb a b = true <-> (a <= b)%Q.
Proof. apply Qle_bool_iff. Qed.

Lemma Q_leb_false (a b : Q) : num_leb a b = false <-> (b < a)%Q.
Proof.
  simpl. rewrite <- not_true_iff_false, Qle_bool_iff.
  split; [apply Qnot_le_lt | apply Qlt_not_le].
Qed.

Lemma Q_ltb_true (a b : Q) : num_ltb a b = true <-> (a < b)%Q.
Proof. simpl. rewrite negb_true_iff. apply (Q_leb_false b a). Qed.

Lemma Q_ltb_false (a b : Q) : num_ltb a b = false <-> (b <= a)%Q.
Proof. simpl. rewrite negb_false_iff. apply Qle_bool_iff. Qed.

(** Case analysis on a comparison of the [Q] instance, leaving the order
    fact among the hypotheses. *)
Ltac q_case_lt a b :=
  let E := fresh "E" in
  destruct (num_ltb (N:=Q) a b) eqn:E;
  [apply Q_ltb_true in E | apply Q_ltb_false in E].

(** ** Range classifier *)

Section ClassifierProperties.
Import VoiceClassifier.

Lemma isInRange_spec (p : Q) (r : Range Q) :
  isInRange p r = true <-> (min r <= p <= max r)%Q.
Proof.
  unfold isInRange. rewrite andb_true_iff, !Q_leb_true. tauto.
Qed.

Lemma primaryVoice_soprano (p : Q) :
  (72 <= p <= 96)%Q -> primaryVoice p = SOPRANO.
Proof.
  intros Hp. unfold primaryVoice, classifyNote, detection.
  cbn [pitch staffPosition voice].
  destruct (isInRange p (VOICE_RANGES SOPRANO)) eqn:E; [reflexivity|].
  apply not_true_iff_false in E. exfalso. apply E.
  apply isInRange_spec. exact Hp.
Qed.

Lemma primaryVoice_outside (p : Q) :
  (p < 36 \/ 96 < p)%Q -> primaryVoice p = BASS.
Proof.
  intros Hp. unfold primaryVoice, classifyNote, detection.
  cbn [pitch staffPosition voice].
  destruct (isInRange p (VOICE_RANGES SOPRANO)) eqn:E1;
    [apply isInRange_spec in E1; cbn in E1; unfold inject_Z in E1; lra|].
  destruct (isInRange p (VOICE_RANGES ALTO)) eqn:E2;
    [apply isInRange_spec in E2; cbn in E2; unfold inject_Z in E2; lra|].
  destruct (isInRange p (VOICE_RANGES TENOR)) eqn:E3;
    [apply isInRange_spec in E3; cbn in E3; unfold inject_Z in E3; lra|].
  reflexivity.
Qed.

(** The voice of a classified note is the refinement by staff position
    when there is one, and the primary voice of its pitch otherwise. *)
Lemma classifyNote_voice (d : DetectedNote Q) :
  voice (classifyNote d) =
  match staffPosition d with
  | Some position =>
      match classifyByStaffPosition position (primaryVoice (pitch d)) with
      | Some v => v
      | None => primaryVoice (pitch d)
      end
  | None => primaryVoice (pitch d)
  end.
Proof. reflexivity. Qed.

Lemma clampPitch_cases (p : Q) :
  ((p < 0)%Q /\ clampPitch p = 0%Q) \/
  ((127 < p)%Q /\ clampPitch p = 127%Q) \/
  ((0 <= p <= 127)%Q /\ clampPitch p = p).
Proof.
  unfold clampPitch.
  q_case_lt p (of_Z 0 : Q); cbn in E.
  - left. split; [exact E | reflexivity].
  - q_case_lt (of_Z 127 : Q) p; cbn in E0.
    + right; left. split; [exact E0 | reflexivity].
    + right; right. split; [split; assumption | reflexivity].
Qed.

Lemma primaryVoice_clamp (p : Q) : primaryVoice (clampPitch p) = primaryVoice p.
Proof.
  destruct (clampPitch_cases p) as [[H E] | [[H E] | [H E]]]; rewrite E.
  - rewrite !primaryVoice_outside; [reflexivity | left; lra | left; lra].
  - rewrite !primaryVoice_outside; [reflexivity | right; lra | right; lra].
  - reflexivity.
Qed.

(** C7: every integer pitch in [72,96] without a position hint is
    classified SOPRANO, and the pitches 71 and 97 just outside the range
    are not. *)
Theorem classifyNote_soprano_range (d : DetectedNote Q) (p : Z) :
  staffPosition d = None ->
  (72 <= p <= 96)%Z ->
  voice (classifyNote (withPitch (inject_Z p) d)) = SOPRANO /\
  voice (classifyNote (withPitch 71 d)) <> SOPRANO /\
  voice (classifyNote (withPitch 97 d)) <> SOPRANO.
Proof.
  intros Hpos Hp.
  rewrite !classifyNote_voice. cbn [withPitch staffPosition pitch].
  rewrite Hpos. split; [|split].
  - apply primaryVoice_soprano.
    split; [change 72%Q with (inject_Z 72) | change 96%Q with (inject_Z 96)];
      rewrite <- Zle_Qle; lia.
  - vm_compute. discriminate.
  - vm_compute. discriminate.
Qed.

Lemma classifyNote_soprano_range_witness :
  voice (classifyNote (withPitch (inject_Z 72) detection_72)) = SOPRANO /\
  voice (classifyNote (withPitch 71 detection_72)) <> SOPRANO /\
  voice (classifyNote (withPitch 97 detection_72)) <> SOPRANO.
Proof.
  apply (classifyNote_soprano_range detection_72 (p := 72)).
  - reflexivity.
  - lia.
Defined.

(** C3, as the code has it: [classifyNote] never clamps.  It is total, it
    returns the detection with its pitch as it came, and only the voice
    and the channel agree with those of the detection whose pitch is
    clamped to [0,127]. *)
Theorem classifyNote_keeps_pitch (d : DetectedNote Q) :
  note (classifyNote d) = d /\
  voice (classifyNote d) =
    voice (classifyNote (withPitch (clampPitch (pitch d)) d)) /\
  channel (classifyNote d) =
    channel (classifyNote (withPitch (clampPitch (pitch d)) d)).
Proof.
  assert (Hv : voice (classifyNote d) =
               voice (classifyNote (withPitch (clampPitch (pitch d)) d))).
  { rewrite !classifyNote_voice. cbn [withPitch staffPosition pitch].
    rewrite primaryVoice_clamp. reflexivity. }
  split; [reflexivity | split; [exact Hv |]].
  change (VOICE_CHANNELS (N:=Q) (voice (classifyNote d)) =
          VOICE_CHANNELS (voice (classifyNote (withPitch (clampPitch (pitch d)) d)))).
  rewrite Hv. reflexivity.
Qed.

(** C3 fails as stated: a detection of pitch 200 is classified with pitch
    200, the detection of the clamped pitch with pitch 127. *)
Lemma classifyNote_clamp_counterexample :
  ~ (0 <= pitch detection_200 <= 127)%Q /\
  pitch (note (classifyNote detection_200)) = 200%Q /\
  pitch (note (classifyNote
                 (withPitch (clampPitch (pitch detection_200)) detection_200)))
    = 127%Q /\
  classifyNote detection_200 <>
    classifyNote (withPitch (clampPitch (pitch detection_200)) detection_200).
Proof.
  split; [|split; [|split]].
  - cbn. lra.
  - reflexivity.
  - reflexivity.
  - intros H.
    apply (f_equal (fun c => Qnum (pitch (note c)))) in H.
    vm_compute in H. discriminate.
Qed.

End ClassifierProperties.

(** ** [Array.prototype.sort] *)

Section SortProperties.
Context {N : Type} {JSN : JSNumber N} {A : Type}.
Variable compareFn : A -> A -> N.

Lemma sort_insert_perm (x : A) (l : list A) :
  Permutation (sort_insert compareFn x l) (x :: l).
Proof.
  induction l as [|y l IH]; cbn.
  - reflexivity.
  - destruct (num_ltb (of_Z 0) (compareFn x y)).
    + rewrite IH. apply perm_swap.
    + reflexivity.
Qed.

(** Whatever the comparator, sorting rearranges and neither adds nor
    drops an element. *)
Lemma Array_sort_perm (l : list A) : Permutation (Array_sort compareFn l) l.
Proof.
  induction l as [|x l IH]; cbn.
  - reflexivity.
  - rewrite sort_insert_perm. constructor. exact IH.
Qed.

Lemma Array_sort_length (l : list A) :
  List.length (Array_sort compareFn l) = List.length l.
Proof. apply Permutation_length, Array_sort_perm. Qed.

End SortProperties.

Section SortByKey.
Context {A : Type}.
Variable key : A -> Q.

Let by_key (a b : A) : Q := (key a - key b)%Q.
Let key_le (a b : A) : Prop := (key a <= key b)%Q.

Lemma sort_insert_HdRel (x y : A) (l : list A) :
  (key y <= key x)%Q -> HdRel key_le y l ->
  HdRel key_le y (sort_insert by_key x l).
Proof.
  intros Hyx Hy. destruct l as [|z l]; cbn [sort_insert].
  - constructor. exact Hyx.
  - destruct (num_ltb (of_Z 0) (by_key x z)).
    + constructor. inversion Hy; assumption.
    + constructor. exact Hyx.
Qed.

Lemma sort_insert_sorted (x : A) (l : list A) :
  Sorted key_le l -> Sorted key_le (sort_insert by_key x l).
Proof.
  induction l as [|y l IH]; intros Hs; cbn [sort_insert].
  - repeat constructor.
  - inversion Hs as [|? ? Hl Hy]; subst.
    q_case_lt (of_Z 0 : Q) (by_key x y);
      unfold by_key in E; cbn in E; unfold inject_Z in E.
    + constructor.
      * apply IH, Hl.
      * apply sort_insert_HdRel; [lra | exact Hy].
    + constructor; [exact Hs | constructor; unfold key_le; lra].
Qed.

(** Sorting with the comparator [(a, b) => key(a) - key(b)] yields a list
    in non-decreasing order of the key. *)
Lemma Array_sort_sorted (l : list A) :
  Sorted key_le (Array_sort by_key l).
Proof.
  induction l as [|x l IH]; cbn.
  - constructor.
  - apply sort_insert_sorted, IH.
Qed.

End SortByKey.

(** ** Sequence builder *)

Section BuilderLayout.
Import MIDIGenerator.
Import VoiceClassifier(ClassifiedNote, note).
Context {N : Type} {JSN : JSNumber N}.
Local Open Scope js_scope.

Lemma generateStep_fold (ns : list (ClassifiedNote N)) (st : GenState N) :
  gs_events (fold_left generateStep ns st) =
  gs_events st ++ layout (gs_currentTime st) ns.
Proof.
  revert st. induction ns as [|n ns IH]; intros st.
  - cbn. rewrite app_nil_r. reflexivity.
  - cbn [fold_left]. rewrite IH. cbn. rewrite <- app_assoc. reflexivity.
Qed.

Lemma generateLoop_events (notes : list (ClassifiedNote N)) :
  gs_events (generateLoop notes) = layout (of_Z 0) (sortedNotes notes).
Proof. unfold generateLoop. rewrite generateStep_fold. reflexivity. Qed.

(** The events of the built sequence are those laid out along the cursor,
    rearranged by the final sort. *)
Lemma generateSequence_events_perm (notes : list (ClassifiedNote N)) (bpm : N) :
  Permutation (events (generateSequence notes bpm))
              (layout (of_Z 0) (sortedNotes notes)).
Proof.
  unfold generateSequence. cbn [events].
  rewrite Array_sort_perm, generateLoop_events. reflexivity.
Qed.

Lemma layout_length (c : N) (ns : list (ClassifiedNote N)) :
  List.length (layout c ns) = (2 * List.length ns)%nat.
Proof.
  revert c. induction ns as [|n ns IH]; intros c.
  - reflexivity.
  - unfold layout in *. cbn. rewrite IH. lia.
Qed.

Lemma sortedNotes_length (notes : list (ClassifiedNote N)) :
  List.length (sortedNotes notes) = List.length notes.
Proof. apply Array_sort_length. Qed.

Lemma generateSequence_events_length (notes : list (ClassifiedNote N)) (bpm : N) :
  List.length (events (generateSequence notes bpm)) = (2 * List.length notes)%nat.
Proof.
  rewrite (Permutation_length (generateSequence_events_perm notes bpm)).
  rewrite layout_length, sortedNotes_length. reflexivity.
Qed.

Lemma layout_velocities (c : N) (ns : list (ClassifiedNote N)) :
  Forall builtVelocity (layout c ns).
Proof.
  revert c. induction ns as [|n ns IH]; intros c.
  - constructor.
  - unfold layout in *. cbn.
    constructor; [reflexivity|]. constructor; [reflexivity|]. apply IH.
Qed.

(** C10: in the built sequence every NOTE_ON has velocity 100 and every
    NOTE_OFF velocity 0, whatever the notes (their confidence, pitch,
    duration and other fields) and the tempo are, and in either
    arithmetic. *)
Theorem generateSequence_velocities (notes : list (ClassifiedNote N)) (bpm : N) :
  Forall (fun e => velocity e = match type e with
                                | noteOn => of_Z 100
                                | noteOff => of_Z 0
                                end)
         (events (generateSequence notes bpm)).
Proof.
  change (Forall builtVelocity (events (generateSequence notes bpm))).
  eapply Permutation_Forall.
  - symmetry. apply generateSequence_events_perm.
  - apply layout_velocities.
Qed.

End BuilderLayout.

Section BuilderExact.
Import MIDIGenerator.
Import VoiceClassifier(ClassifiedNote, note).

(** C6: for a non-empty list of classified notes and a positive tempo, the
    built sequence has twice as many events as there are notes, and its
    events are in non-decreasing order of [time]. *)
Theorem generateSequence_length_sorted
    (notes : list (ClassifiedNote Q)) (bpm : Q) :
  notes <> [] ->
  (0 < bpm)%Q ->
  List.length (events (generateSequence notes bpm)) = (2 * List.length notes)%nat /\
  Sorted (fun a b => (time a <= time b)%Q) (events (generateSequence notes bpm)).
Proof.
  intros _ _. split.
  - apply generateSequence_events_length.
  - unfold generateSequence. cbn [events].
    apply (Array_sort_sorted (@time Q)).
Qed.

Lemma generateSequence_length_sorted_witness :
  List.length (events (generateSequence three_notes 120)) =
    (2 * List.length three_notes)%nat /\
  Sorted (fun a b => (time a <= time b)%Q)
         (events (generateSequence three_notes 120)).
Proof.
  apply generateSequence_length_sorted.
  - discriminate.
  - reflexivity.
Defined.

(** C2, as the code has it.  In either arithmetic each note, taken in
    timestamp order, yields a NOTE_ON at the running cursor and a NOTE_OFF
    at the cursor plus the duration of the note, and that duration is
    used as it comes.  In exact arithmetic the NOTE_OFF is strictly later
    exactly when the duration is positive, at the same time when it is
    zero and earlier when it is negative.  In binary64 the sum is
    rounded, and a positive duration can be lost in it: after a note of
    2^53 beats, a note of one beat has its NOTE_ON and its NOTE_OFF both
    at 2^53. *)
Theorem generateSequence_on_off_times :
  (forall (N : Type) (JSN : JSNumber N)
          (notes : list (ClassifiedNote N)) (bpm : N),
     let ns := sortedNotes notes in
     let evs := events (generateSequence notes bpm) in
     Permutation evs (flat_map notePair (combine ns (cursors (of_Z 0) ns))) /\
     forall n c, In (n, c) (combine ns (cursors (of_Z 0) ns)) ->
       In (noteOnAt n c) evs /\
       In (noteOffAt n (c + VoiceClassifier.duration (note n))%js) evs) /\
  (forall (n : ClassifiedNote Q) (c : Q),
     let d := VoiceClassifier.duration (note n) in
     ((0 < d)%Q <-> (time (noteOnAt n c) < time (noteOffAt n (c + d)%Q))%Q) /\
     ((d == 0)%Q <-> (time (noteOffAt n (c + d)%Q) == time (noteOnAt n c))%Q) /\
     ((d < 0)%Q <-> (time (noteOffAt n (c + d)%Q) < time (noteOnAt n c))%Q)) /\
  map (fun e => (type e, pitch e, time e))
      (events (generateSequence long_then_short 120%float))
  = [(noteOn, 60, 0); (noteOff, 60, 9007199254740992);
     (noteOn, 62, 9007199254740992); (noteOff, 62, 9007199254740992)]%float.
Proof.
  split; [|split].
  - intros N JSN notes bpm ns evs.
    assert (HP : Permutation evs
                   (flat_map notePair (combine ns (cursors (of_Z 0) ns))))
      by exact (generateSequence_events_perm notes bpm).
    split; [exact HP|].
    intros n c Hin.
    assert (Hsub : forall e, In e (notePair (n, c)) -> In e evs).
    { intros e He. eapply Permutation_in; [symmetry; exact HP|].
      apply in_flat_map. exists (n, c). split; assumption. }
    split; [apply Hsub; left; reflexivity|].
    apply Hsub; right; left; reflexivity.
  - intros n c d. cbn [time noteOnAt noteOffAt].
    repeat split; intros; lra.
  - vm_compute. reflexivity.
Qed.

(** C2 fails as stated: a duration of 0 is not replaced by a positive
    epsilon, and the NOTE_ON and the NOTE_OFF of the note are both at
    time 0. *)
Lemma generateSequence_zero_duration_counterexample :
  (VoiceClassifier.duration (note zero_length_note) <= 0)%Q /\
  map (fun e => (type e, time e))
      (events (generateSequence [zero_length_note] 120)) =
  [(noteOn, 0%Q); (noteOff, 0%Q)].
Proof. split; [cbn; lra | reflexivity]. Qed.

End BuilderExact.

(** ** Transforms *)

Section MuteVoice.
Import MIDIGenerator.
Import VoiceClassifier(Voice).
Context {N : Type} {JSN : JSNumber N}.
Local Open Scope js_scope.

(** C9: [muteVoice] leaves the tempo, the duration and the per-voice
    sub-streams of the sequence as they are (so the sub-streams keep their
    velocities), and in the flat event list it only sets to 0 the velocity
    of the events on the channel of the voice: kind, pitch, time and
    channel of every event, and every event on another channel, are
    unchanged. *)
Theorem muteVoice_frame (s : MIDISequence N) (v : Voice) :
  tempo (muteVoice s v) = tempo s /\
  totalDuration (muteVoice s v) = totalDuration s /\
  voices (muteVoice s v) = voices s /\
  (forall w, getVoiceEvents (muteVoice s v) w = getVoiceEvents s w) /\
  Forall2 (mutedAs v) (events s) (events (muteVoice s v)).
Proof.
  repeat (split; [reflexivity|]).
  unfold muteVoice. cbn [events].
  induction (events s) as [|e es IH]; cbn [map]; constructor.
  - unfold mutedAs.
    destruct (channel e === getChannelForVoice v); cbn; repeat split; reflexivity.
  - exact IH.
Qed.

End MuteVoice.

Section AdjustTempo.
Import MIDIGenerator.

Lemma rescale_twice (x a t1 t2 : Q) :
  ~ t1 == 0 -> ~ t2 == 0 ->
  x * (a / t1) * (t1 / t2) == x * (a / t2).
Proof. intros H1 H2. field. split; assumption. Qed.

(** C8, in exact arithmetic: for positive tempos, rescaling to [t1] and
    then to [t2] gives the tempo, and up to equality of rationals the
    event times and the total duration, of rescaling to [t2] at once. *)
Theorem adjustTempo_compose (s : MIDISequence Q) (t1 t2 : Q) :
  0 < t1 -> 0 < t2 ->
  tempo (adjustTempo (adjustTempo s t1) t2) = tempo (adjustTempo s t2) /\
  totalDuration (adjustTempo (adjustTempo s t1) t2)
    == totalDuration (adjustTempo s t2) /\
  Forall2 (fun e e' => time e == time e')
          (events (adjustTempo (adjustTempo s t1) t2))
          (events (adjustTempo s t2)).
Proof.
  intros H1 H2.
  assert (N1 : ~ t1 == 0) by lra.
  assert (N2 : ~ t2 == 0) by lra.
  split; [reflexivity|]. split.
  - cbn. apply rescale_twice; assumption.
  - unfold adjustTempo. cbn [events tempo]. rewrite map_map.
    induction (events s) as [|e es IH]; cbn [map]; constructor.
    + cbn. apply rescale_twice; assumption.
    + exact IH.
Qed.

Lemma adjustTempo_compose_witness :
  tempo (adjustTempo (adjustTempo one_event_sequence 140) 100)
    = tempo (adjustTempo one_event_sequence 100) /\
  totalDuration (adjustTempo (adjustTempo one_event_sequence 140) 100)
    == totalDuration (adjustTempo one_event_sequence 100) /\
  Forall2 (fun e e' => time e == time e')
          (events (adjustTempo (adjustTempo one_event_sequence 140) 100))
          (events (adjustTempo one_event_sequence 100)).
Proof.
  apply (adjustTempo_compose one_event_sequence (t1 := 140) (t2 := 100)).
  - reflexivity.
  - reflexivity.
Defined.

(** C8 fails as stated on the numbers JavaScript computes with.  In
    binary64, taking the event at time 3 from 120 BPM to 140 and then to
    100 puts it at 8106479329266891 * 2^-51 (3.5999999999999992), and
    taking it to 100 at once puts it at 8106479329266892 * 2^-51
    (3.5999999999999996), one unit in the last place later.  The total
    durations differ in the same way. *)
Lemma adjustTempo_compose_binary64_counterexample :
  let s : MIDISequence float := one_event_sequence in
  let t1 : float := 140%float in
  let t2 : float := 100%float in
  tempo s = 120%float /\ map time (events s) = [3%float] /\
  totalDuration s = 3%float /\
  (0 <? t1)%float = true /\ (0 <? t2)%float = true /\
  map (fun e => Prim2SF (time e)) (events (adjustTempo (adjustTempo s t1) t2))
    = [S754_finite false 8106479329266891 (-51)] /\
  map (fun e => Prim2SF (time e)) (events (adjustTempo s t2))
    = [S754_finite false 8106479329266892 (-51)] /\
  (totalDuration (adjustTempo (adjustTempo s t1) t2)
     <? totalDuration (adjustTempo s t2))%float = true.
Proof. vm_compute. repeat split; reflexivity. Qed.

End AdjustTempo.

(** ** Binary encoder *)

Section EncoderLayout.
Import MIDIGenerator.
Context {N : Type} {JSN : JSNumber N}.
Local Open Scope js_scope.

Lemma encodeStep_fold (evs : list (MIDIEvent N)) (trackData : list N) (lastTime : N) :
  fst (fold_left encodeStep evs (trackData, lastTime)) =
  trackData ++ eventStream lastTime evs.
Proof.
  revert trackData lastTime.
  induction evs as [|e evs IH]; intros trackData lastTime.
  - cbn. rewrite app_nil_r. reflexivity.
  - cbn [fold_left encodeStep eventStream]. unfold statusOf.
    destruct (type e); rewrite IH, <- !app_assoc; reflexivity.
Qed.

Lemma trackDataOf_layout (s : MIDISequence N) :
  trackDataOf s =
  metaEvent (of_Z 81)
    (numberToBytes (Math_round (of_Z 60000000 / tempo s)) 3)
  ++ eventStream (of_Z 0) (events s)
  ++ metaEvent (of_Z 47) [].
Proof.
  unfold trackDataOf.
  pose proof (encodeStep_fold (events s)
                (metaEvent (of_Z 81)
                   (numberToBytes (Math_round (of_Z 60000000 / tempo s)) 3))
                (of_Z 0)) as H.
  destruct (fold_left encodeStep (events s) _) as [trackData lastTime].
  cbn [fst] in H. rewrite H, <- app_assoc. reflexivity.
Qed.

(** The bound of five passes is never reached: with more fuel the loop of
    [variableLengthQuantity] returns the same bytes. *)
Lemma variableLengthQuantity_loop_fuel (fuel k : nat) (value : Z) (bytes : list Z) :
  (value < 128 ^ Z.of_nat fuel)%Z ->
  variableLengthQuantity_loop (fuel + k) value bytes =
  variableLengthQuantity_loop fuel value bytes.
Proof.
  revert value bytes. induction fuel as [|fuel IH]; intros value bytes Hv.
  - cbn in Hv. destruct k; cbn; [reflexivity|].
    destruct (0 <? value)%Z eqn:E; [apply Z.ltb_lt in E; lia | reflexivity].
  - cbn [Nat.add variableLengthQuantity_loop].
    destruct (0 <? value)%Z eqn:E; [|reflexivity].
    apply IH. rewrite Z.shiftr_div_pow2 by lia.
    apply Z.div_lt_upper_bound; [lia|].
    rewrite Nat2Z.inj_succ, Z.pow_succ_r in Hv by lia.
    change (2 ^ 7)%Z with 128%Z. lia.
Qed.

End EncoderLayout.

Section EncoderExact.
Import MIDIGenerator.
Local Open Scope Z_scope.

Lemma wrap32_range (z : Z) : - 2 ^ 31 <= wrap32 z < 2 ^ 31.
Proof.
  unfold wrap32. change (2 ^ 31) with 2147483648.
  change (2 ^ 32) with 4294967296. Z.div_mod_to_equations. lia.
Qed.

Lemma wrap32_small (z : Z) : - 2 ^ 31 <= z < 2 ^ 31 -> wrap32 z = z.
Proof.
  intros. unfold wrap32. change (2 ^ 31) with 2147483648 in *.
  change (2 ^ 32) with 4294967296. Z.div_mod_to_equations. lia.
Qed.

Lemma wrap32_mod_256 (z : Z) : wrap32 z mod 256 = z mod 256.
Proof.
  unfold wrap32. change (2 ^ 31) with 2147483648.
  change (2 ^ 32) with 4294967296. Z.div_mod_to_equations. lia.
Qed.

Lemma land_255 (a : Z) : Z.land a 255 = a mod 256.
Proof. change 255 with (Z.ones 8). rewrite Z.land_ones by lia. reflexivity. Qed.

Lemma Qtrunc_inject_Z (z : Z) : Qtrunc (inject_Z z) = z.
Proof. unfold Qtrunc. cbn. apply Z.quot_1_r. Qed.

Lemma ToInt32_of_Z (z : Z) : ToInt32 (of_Z z : Q) = wrap32 z.
Proof. cbn. rewrite Qtrunc_inject_Z. reflexivity. Qed.

(** In exact arithmetic [ToUint8] is the integer part modulo 256. *)
Lemma ToUint8_Q (q : Q) : ToUint8 q = Qtrunc q mod 256.
Proof. unfold ToUint8. cbn. apply wrap32_mod_256. Qed.

Lemma ToUint8_of_Z (z : Z) : ToUint8 (of_Z z : Q) = z mod 256.
Proof. rewrite ToUint8_Q. cbn. rewrite Qtrunc_inject_Z. reflexivity. Qed.

Lemma ToUint8_range (q : Q) : 0 <= ToUint8 q < 256.
Proof. unfold ToUint8. apply Z.mod_pos_bound. lia. Qed.

(** The byte [(n >> k) & 0xff] of an array length [n], once stored. *)
Lemma length_byte (n k : Z) :
  k = 0 \/ k = 8 \/ k = 16 \/ k = 24 ->
  wrap32 (Z.land (wrap32 (Z.shiftr (wrap32 n) k)) 255) mod 256
  = (n / 2 ^ k) mod 256.
Proof.
  intros Hk. rewrite land_255.
  rewrite (wrap32_small (z := _ mod 256)) by (Z.div_mod_to_equations; lia).
  rewrite Z.mod_mod by lia.
  rewrite Z.shiftr_div_pow2 by lia.
  unfold wrap32.
  destruct Hk as [-> | [-> | [-> | ->]]];
    change (2 ^ 31) with 2147483648; change (2 ^ 32) with 4294967296;
    [ change (2 ^ 0) with 1 | change (2 ^ 8) with 256
    | change (2 ^ 16) with 65536 | change (2 ^ 24) with 16777216 ];
    Z.div_mod_to_equations; lia.
Qed.

Lemma ToUint8_sar_and (n k : Z) :
  k = 8 \/ k = 16 \/ k = 24 ->
  ToUint8 (js_and (js_sar (of_Z n : Q) (of_Z k)) (of_Z 255))
  = (n / 2 ^ k) mod 256.
Proof.
  intros Hk. unfold ToUint8, js_and, js_sar. rewrite !ToInt32_of_Z.
  replace (wrap32 k mod 32) with k
    by (destruct Hk as [-> | [-> | ->]]; reflexivity).
  change (wrap32 255) with 255.
  apply length_byte. tauto.
Qed.

Lemma ToUint8_and (n : Z) :
  ToUint8 (js_and (of_Z n : Q) (of_Z 255)) = n mod 256.
Proof.
  unfold ToUint8, js_and. rewrite !ToInt32_of_Z.
  change (wrap32 255) with 255.
  rewrite land_255, wrap32_mod_256, Z.mod_mod by lia.
  apply wrap32_mod_256.
Qed.

Lemma big_endian_value_4 (z : Z) :
  0 <= z < 2 ^ 32 -> big_endian_value (big_endian 4 z) = z.
Proof.
  intros Hz. unfold big_endian_value. cbn [big_endian fold_left Z.of_nat].
  change (256 ^ Z.of_nat 3) with 16777216. change (256 ^ Z.of_nat 2) with 65536.
  change (256 ^ Z.of_nat 1) with 256. change (256 ^ Z.of_nat 0) with 1.
  change (2 ^ 32) with 4294967296 in Hz.
  Z.div_mod_to_equations. lia.
Qed.

End EncoderExact.

Section EncoderChunks.
Import MIDIGenerator.
Local Open Scope Z_scope.

Lemma Uint8Array_app (a b : list Q) :
  Uint8Array (a ++ b) = Uint8Array a ++ Uint8Array b.
Proof. apply map_app. Qed.

Lemma Uint8Array_length (a : list Q) :
  List.length (Uint8Array a) = List.length a.
Proof. apply length_map. Qed.

Lemma trackLength_bytes (n : Z) :
  Uint8Array
    [js_and (js_sar (of_Z n : Q) (of_Z 24)) (of_Z 255);
     js_and (js_sar (of_Z n) (of_Z 16)) (of_Z 255);
     js_and (js_sar (of_Z n) (of_Z 8)) (of_Z 255);
     js_and (of_Z n) (of_Z 255)]
  = big_endian 4 n.
Proof.
  unfold Uint8Array. cbn [map big_endian Z.of_nat].
  rewrite !ToUint8_sar_and, ToUint8_and by tauto.
  change (256 ^ Z.of_nat 3) with (2 ^ 24). change (256 ^ Z.of_nat 2) with (2 ^ 16).
  change (256 ^ Z.of_nat 1) with (2 ^ 8). change (256 ^ Z.of_nat 0) with 1.
  rewrite Z.div_1_r. reflexivity.
Qed.

(** The encoded track body: tempo meta event, events, end of track. *)
Lemma trackData_bytes (s : MIDISequence Q) :
  Uint8Array (trackDataOf s) =
  [255; 81; 3]
  ++ Uint8Array (numberToBytes (Math_round (of_Z 60000000 / tempo s)%js) 3)
  ++ Uint8Array (eventStream (of_Z 0) (events s))
  ++ [255; 47; 0].
Proof.
  rewrite trackDataOf_layout, !Uint8Array_app. reflexivity.
Qed.

(** C5: the encoded bytes are the header chunk ["MThd"], length 6, format
    0, one track, 480 ticks per beat on two big-endian bytes, then the
    track chunk ["MTrk"], whose four big-endian length bytes give exactly
    the number of bytes of the track body that follows: the tempo meta
    event, the event stream and the end-of-track meta event FF 2F 00.
    The body has fewer than 2^32 bytes, as every JavaScript array has. *)
Theorem sequenceToMidiBytes_chunks (s : MIDISequence Q) :
  let body := Uint8Array (trackDataOf s) in
  Z.of_nat (List.length body) < 2 ^ 32 ->
  sequenceToMidiBytes s =
    char_codes "MThd" ++ big_endian 4 6 ++ big_endian 2 0 ++ big_endian 2 1
    ++ big_endian 2 480
    ++ char_codes "MTrk" ++ big_endian 4 (Z.of_nat (List.length body)) ++ body /\
  big_endian_value (big_endian 4 (Z.of_nat (List.length body)))
    = Z.of_nat (List.length body) /\
  exists tempoData eventData,
    List.length tempoData = 3%nat /\
    body = [255; 81; 3] ++ tempoData ++ eventData ++ [255; 47; 0].
Proof.
  intros body Hlen. split; [|split].
  - unfold sequenceToMidiBytes. rewrite !Uint8Array_app.
    rewrite trackLength_bytes.
    subst body. rewrite Uint8Array_length.
    rewrite <- !app_assoc. reflexivity.
  - apply big_endian_value_4. lia.
  - exists (Uint8Array (numberToBytes (Math_round (of_Z 60000000 / tempo s)%js) 3)),
           (Uint8Array (eventStream (of_Z 0) (events s))).
    split; [reflexivity | apply trackData_bytes].
Qed.

Lemma sequenceToMidiBytes_chunks_witness :
  let body := Uint8Array (trackDataOf quarter_note_sequence) in
  sequenceToMidiBytes quarter_note_sequence =
    char_codes "MThd" ++ big_endian 4 6 ++ big_endian 2 0 ++ big_endian 2 1
    ++ big_endian 2 480
    ++ char_codes "MTrk" ++ big_endian 4 (Z.of_nat (List.length body)) ++ body /\
  big_endian_value (big_endian 4 (Z.of_nat (List.length body)))
    = Z.of_nat (List.length body) /\
  exists tempoData eventData,
    List.length tempoData = 3%nat /\
    body = [255; 81; 3] ++ tempoData ++ eventData ++ [255; 47; 0].
Proof.
  apply (sequenceToMidiBytes_chunks quarter_note_sequence).
  reflexivity.
Defined.

End EncoderChunks.

Section EncoderTotal.
Import MIDIGenerator.
Local Open Scope Z_scope.

Lemma last_cons (A : Type) (x d : A) (l : list A) : last (x :: l) d = last l x.
Proof.
  revert x d. induction l as [|y l IH]; intros x d; [reflexivity|].
  change (last (x :: y :: l) d) with (last (y :: l) d).
  rewrite (IH y d), (IH y x). reflexivity.
Qed.

(** The bytes of the event that follows the events [pre]: its delta is
    taken from the time of the last event of [pre], or from 0. *)
Lemma eventStream_app (lastTime : Q) (pre post : list (MIDIEvent Q)) (e : MIDIEvent Q) :
  eventStream lastTime (pre ++ e :: post) =
  eventStream lastTime pre
  ++ variableLengthQuantity (deltaTime e (last (map time pre) lastTime))
  ++ [statusOf e; pitch e; velocity e]
  ++ eventStream (time e) post.
Proof.
  revert lastTime. induction pre as [|a pre IH]; intros lastTime.
  - reflexivity.
  - cbn [app eventStream map]. rewrite IH, last_cons, <- !app_assoc.
    reflexivity.
Qed.

Lemma Uint8Array_range (l : list Q) :
  Forall (fun b => 0 <= b < 256) (Uint8Array l).
Proof.
  induction l as [|x l IH]; constructor; [apply ToUint8_range | exact IH].
Qed.

Lemma sequenceToMidiBytes_prefix (s : MIDISequence Q) :
  exists chunkHeaders,
    sequenceToMidiBytes s = chunkHeaders ++ Uint8Array (trackDataOf s).
Proof.
  unfold sequenceToMidiBytes. rewrite Uint8Array_app.
  eexists. reflexivity.
Qed.

End EncoderTotal.

Section VariableLength.
Import MIDIGenerator.
Local Open Scope Z_scope.

Lemma vlq_value_app (a b : list Z) :
  vlq_value (a ++ b) =
  fold_left (fun acc x => acc * 128 + x mod 128) b (vlq_value a).
Proof. unfold vlq_value. apply fold_left_app. Qed.

Lemma continuation_byte (v : Z) :
  Z.lor (Z.land v 127) 128 = v mod 128 + 128.
Proof.
  assert (H : Z.land (Z.land v 127) 128 = 0)
    by (rewrite <- Z.land_assoc; change (Z.land 127 128) with 0; apply Z.land_0_r).
  rewrite <- (Z.lxor_lor _ _ H), <- (Z.add_nocarry_lxor _ _ H).
  change 127 with (Z.ones 7). rewrite Z.land_ones by lia. reflexivity.
Qed.

(** The loop puts in front of [bytes] the continued bytes of [value]. *)
Lemma variableLengthQuantity_loop_spec (fuel : nat) (value : Z) (bytes : list Z) :
  0 <= value < 128 ^ Z.of_nat fuel ->
  exists init,
    variableLengthQuantity_loop fuel value bytes = init ++ bytes /\
    Forall (fun b => 128 <= b < 256) init /\
    vlq_value init = value.
Proof.
  revert value bytes. induction fuel as [|fuel IH]; intros value bytes Hv.
  - exists []. cbn in *. repeat split; [constructor | lia].
  - cbn [variableLengthQuantity_loop].
    destruct (0 <? value) eqn:E.
    + apply Z.ltb_lt in E.
      rewrite Nat2Z.inj_succ, Z.pow_succ_r in Hv by lia.
      destruct (IH (Z.shiftr value 7)
                   (Z.lor (Z.land value 127) 128 :: bytes)) as (init & Hl & Hc & Hval).
      { rewrite Z.shiftr_div_pow2 by lia. change (2 ^ 7) with 128.
        split; [apply Z.div_pos; lia | apply Z.div_lt_upper_bound; lia]. }
      exists (init ++ [Z.lor (Z.land value 127) 128]).
      rewrite Hl, <- app_assoc. split; [reflexivity|].
      rewrite continuation_byte. split.
      * apply Forall_app. split; [exact Hc|].
        constructor; [|constructor].
        pose proof (Z.mod_pos_bound value 128). lia.
      * rewrite vlq_value_app, Hval. cbn [fold_left].
        rewrite Z.shiftr_div_pow2 by lia. change (2 ^ 7) with 128.
        Z.div_mod_to_equations. lia.
    + apply Z.ltb_ge in E. exists [].
      repeat split; [constructor | cbn; lia].
Qed.

Lemma Uint8Array_of_Z (l : list Z) :
  Forall (fun b => 0 <= b < 256) l -> Uint8Array (map (of_Z (N := Q)) l) = l.
Proof.
  induction 1 as [|b l Hb _ IH]; [reflexivity|].
  cbn [map Uint8Array] in *. unfold Uint8Array in IH. rewrite IH, ToUint8_of_Z.
  rewrite Z.mod_small by lia. reflexivity.
Qed.

(** The variable-length encoding itself is the standard one: a delta of
    [v] ticks, [0 <= v < 2^31], is written base 128, most significant byte
    first, with the continuation bit on all bytes but the last, and reads
    back as [v]. *)
Lemma variableLengthQuantity_correct (v : Z) :
  0 <= v < 2 ^ 31 ->
  vlq_value (Uint8Array (variableLengthQuantity (of_Z v : Q))) = v /\
  vlq_continued (Uint8Array (variableLengthQuantity (of_Z v : Q))).
Proof.
  intros Hv. unfold variableLengthQuantity.
  rewrite ToInt32_of_Z, wrap32_small by lia.
  destruct (@variableLengthQuantity_loop_spec 5 (Z.shiftr v 7) [Z.land v 127])
    as (init & Hl & Hc & Hval).
  { rewrite Z.shiftr_div_pow2 by lia. change (2 ^ 7) with 128.
    change (2 ^ 31) with 2147483648 in Hv.
    change (128 ^ Z.of_nat 5) with 34359738368.
    split; [apply Z.div_pos; lia | apply Z.div_lt_upper_bound; lia]. }
  assert (Hlast : 0 <= Z.land v 127 < 128 /\ Z.land v 127 = v mod 128).
  { change 127 with (Z.ones 7). rewrite Z.land_ones by lia.
    change (2 ^ 7) with 128. pose proof (Z.mod_pos_bound v 128). lia. }
  rewrite Hl, Uint8Array_of_Z.
  - split.
    + rewrite vlq_value_app, Hval. cbn [fold_left].
      destruct Hlast as [_ ->]. rewrite Z.mod_mod by lia.
      rewrite Z.shiftr_div_pow2 by lia. change (2 ^ 7) with 128.
      Z.div_mod_to_equations. lia.
    + exists init, (Z.land v 127). repeat split; [exact Hc | lia | lia].
  - apply Forall_app. split.
    + eapply Forall_impl; [|exact Hc]. cbn. intros; lia.
    + constructor; [lia | constructor].
Qed.

(** In exact arithmetic the bound of five passes of the loop of
    [variableLengthQuantity] is never reached. *)
Lemma variableLengthQuantity_fuel (value : Q) (k : nat) :
  map (of_Z (N := Q))
      (variableLengthQuantity_loop (5 + k)
         (Z.shiftr (ToInt32 value) 7) [Z.land (ToInt32 value) 127])
  = variableLengthQuantity value.
Proof.
  unfold variableLengthQuantity. f_equal.
  apply variableLengthQuantity_loop_fuel.
  pose proof (wrap32_range (Qtrunc value)) as H.
  cbn [ToInt32 Q_JSNumber].
  rewrite Z.shiftr_div_pow2 by lia. change (2 ^ 7) with 128.
  change (2 ^ 31) with 2147483648 in H.
  change (128 ^ Z.of_nat 5) with 34359738368.
  apply Z.div_lt_upper_bound; lia.
Qed.

(** C1 fails on the code.  The header declares 480 ticks per beat, and the
    NOTE_OFF of [quarter_note_sequence] is one beat after its NOTE_ON, but
    the delta the loop computes for it is 4, written as the byte 04, where
    480 ticks are the bytes 83 60. *)
Theorem sequenceToMidiBytes_delta_scale :
  sequenceToMidiBytes quarter_note_sequence =
    [77; 84; 104; 100; 0; 0; 0; 6; 0; 0; 0; 1; 1; 224;
     77; 84; 114; 107; 0; 0; 0; 17;
     255; 81; 3; 32; 161; 7;
     0; 145; 60; 100;
     4; 129; 60; 0;
     255; 47; 0] /\
  map (fun e => (time e, deltaTime e 0%Q)) (skipn 1 (events quarter_note_sequence))
    = [(1%Q, 4%Q)] /\
  Uint8Array (variableLengthQuantity (deltaTime
     {| type := noteOff; pitch := 60%Q; velocity := 0%Q;
        time := 1%Q; channel := 1%Q; duration := None |} 0%Q)) = [4] /\
  Uint8Array (variableLengthQuantity (num_mul (TICKS_PER_BEAT : Q) (1 - 0)%Q))
    = [131; 96].
Proof. repeat split; reflexivity. Qed.

End VariableLength.

(** ** Worked examples *)

Section Examples.
Import MIDIGenerator.
Local Open Scope Z_scope.

(** Pitches 72, 65 and 48 without staff position are SOPRANO, ALTO and
    TENOR, on channels 0, 1 and 2. *)
Example three_notes_voices :
  map (fun n => (VoiceClassifier.voice n,
                 Qtrunc (VoiceClassifier.channel n))) three_notes =
  [(VoiceClassifier.SOPRANO, 0); (VoiceClassifier.ALTO, 1);
   (VoiceClassifier.TENOR, 2)].
Proof. reflexivity. Qed.

(** Notes of durations 1, 1 and 2 are laid out one after the other, at
    times 0,1, 1,2 and 2,4; the total duration is 4. *)
Example three_notes_layout :
  map (fun e => (type e, time e)) (events (generateSequence three_notes 120%Q)) =
  [(noteOn, 0%Q); (noteOff, 1%Q); (noteOn, 1%Q); (noteOff, 2%Q);
   (noteOn, 2%Q); (noteOff, 4%Q)] /\
  totalDuration (generateSequence three_notes 120%Q) = 4%Q.
Proof. split; reflexivity. Qed.

(** The same layout in binary64. *)
Example three_notes_layout_binary64 :
  let notes :=
    VoiceClassifier.classifyNotes
      (map (fun pd : float * float =>
              {| VoiceClassifier.pitch := fst pd;
                 VoiceClassifier.duration := snd pd;
                 VoiceClassifier.staffPosition := None;
                 VoiceClassifier.timestamp := None;
                 VoiceClassifier.confidence := None |})
           [(72, 1); (65, 1); (48, 2)]%float) in
  map (fun e => (type e, time e)) (events (generateSequence notes 120%float)) =
  [(noteOn, 0%float); (noteOff, 1%float); (noteOn, 1%float);
   (noteOff, 2%float); (noteOn, 2%float); (noteOff, 4%float)].
Proof. vm_compute. reflexivity. Qed.

(** At 120 BPM a beat lasts 500000 microseconds, 07 A1 20 in hexadecimal;
    [numberToBytes] yields the least significant byte first. *)
Example tempo_data_120 :
  Uint8Array (numberToBytes (Math_round (of_Z 60000000 / 120%Q)%js) 3)
  = [32; 161; 7].
Proof. reflexivity. Qed.

End Examples.

(** * Further properties of the code *)

(** ** Range classifier: bands, staff positions, counting *)

Section ClassifierBands.
Import VoiceClassifier.

Lemma pitch_bands (d : DetectedNote Q) :
  staffPosition d = None ->
  ((72 <= pitch d <= 96)%Q -> voice (classifyNote d) = SOPRANO) /\
  ((60 <= pitch d < 72)%Q -> voice (classifyNote d) = ALTO) /\
  ((48 <= pitch d < 60)%Q -> voice (classifyNote d) = TENOR) /\
  ((pitch d < 48 \/ 96 < pitch d)%Q -> voice (classifyNote d) = BASS).
Proof.
  intros Hpos. unfold classifyNote. rewrite Hpos. cbn [voice].
  destruct (isInRange (pitch d) (VOICE_RANGES SOPRANO)) eqn:E1;
    [apply isInRange_spec in E1 | apply not_true_iff_false in E1;
                                  rewrite isInRange_spec in E1];
  destruct (isInRange (pitch d) (VOICE_RANGES ALTO)) eqn:E2;
    [apply isInRange_spec in E2 | apply not_true_iff_false in E2;
                                  rewrite isInRange_spec in E2
    |apply isInRange_spec in E2 | apply not_true_iff_false in E2;
                                  rewrite isInRange_spec in E2];
  destruct (isInRange (pitch d) (VOICE_RANGES TENOR)) eqn:E3;
    [apply isInRange_spec in E3 | apply not_true_iff_false in E3;
                                  rewrite isInRange_spec in E3
    |apply isInRange_spec in E3 | apply not_true_iff_false in E3;
                                  rewrite isInRange_spec in E3
    |apply isInRange_spec in E3 | apply not_true_iff_false in E3;
                                  rewrite isInRange_spec in E3
    |apply isInRange_spec in E3 | apply not_true_iff_false in E3;
                                  rewrite isInRange_spec in E3];
  cbn in E1, E2, E3; unfold inject_Z in E1, E2, E3;
  (repeat split; intros H; try reflexivity; exfalso;
   try destruct H; lra).
Qed.

(** Without a staff position the voice follows the pitch alone, and the
    overlaps of the four ranges are settled by the order of the tests:
    [72,96] is SOPRANO, [60,72) ALTO, [48,60) TENOR, and every other
    pitch, above 96 as well as below 48, is BASS. *)
Theorem classifyNote_pitch_bands (d : DetectedNote Q) :
  staffPosition d = None ->
  ((72 <= pitch d <= 96)%Q -> voice (classifyNote d) = SOPRANO) /\
  ((60 <= pitch d < 72)%Q -> voice (classifyNote d) = ALTO) /\
  ((48 <= pitch d < 60)%Q -> voice (classifyNote d) = TENOR) /\
  ((pitch d < 48 \/ 96 < pitch d)%Q -> voice (classifyNote d) = BASS).
Proof. apply pitch_bands. Qed.

Lemma classifyNote_pitch_bands_witness :
  ((72 <= pitch detection_200 <= 96)%Q ->
     voice (classifyNote detection_200) = SOPRANO) /\
  ((60 <= pitch detection_200 < 72)%Q ->
     voice (classifyNote detection_200) = ALTO) /\
  ((48 <= pitch detection_200 < 60)%Q ->
     voice (classifyNote detection_200) = TENOR) /\
  ((pitch detection_200 < 48 \/ 96 < pitch detection_200)%Q ->
     voice (classifyNote detection_200) = BASS).
Proof. apply (@classifyNote_pitch_bands detection_200). reflexivity. Defined.

End ClassifierBands.

Section ClassifierStaff.
Import VoiceClassifier.

(** A staff position, when there is one, decides the voice whatever the
    pitch: up to 2 SOPRANO, up to 4 ALTO, up to 7 TENOR, beyond BASS. *)
Theorem classifyNote_staff_position_wins (d : DetectedNote Q) (position : Q) :
  staffPosition d = Some position ->
  ((position <= 2)%Q -> voice (classifyNote d) = SOPRANO) /\
  ((2 < position <= 4)%Q -> voice (classifyNote d) = ALTO) /\
  ((4 < position <= 7)%Q -> voice (classifyNote d) = TENOR) /\
  ((7 < position)%Q -> voice (classifyNote d) = BASS).
Proof.
  intros Hpos. rewrite classifyNote_voice, Hpos.
  unfold classifyByStaffPosition.
  destruct (num_leb position (of_Z 2 : Q)) eqn:L2;
    [apply Q_leb_true in L2 | apply Q_leb_false in L2];
    destruct (num_leb position (of_Z 4 : Q)) eqn:L4;
    [apply Q_leb_true in L4 | apply Q_leb_false in L4
    |apply Q_leb_true in L4 | apply Q_leb_false in L4];
    destruct (num_leb position (of_Z 7 : Q)) eqn:L7;
    [apply Q_leb_true in L7 | apply Q_leb_false in L7
    |apply Q_leb_true in L7 | apply Q_leb_false in L7
    |apply Q_leb_true in L7 | apply Q_leb_false in L7
    |apply Q_leb_true in L7 | apply Q_leb_false in L7];
    cbn in L2, L4, L7; unfold inject_Z in L2, L4, L7;
    (repeat split; intros H; try reflexivity; exfalso; lra).
Qed.

Lemma classifyNote_staff_position_wins_witness :
  ((0 <= 2)%Q -> voice (classifyNote low_pitch_top_line) = SOPRANO) /\
  ((2 < 0 <= 4)%Q -> voice (classifyNote low_pitch_top_line) = ALTO) /\
  ((4 < 0 <= 7)%Q -> voice (classifyNote low_pitch_top_line) = TENOR) /\
  ((7 < 0)%Q -> voice (classifyNote low_pitch_top_line) = BASS).
Proof.
  apply (@classifyNote_staff_position_wins low_pitch_top_line 0%Q).
  reflexivity.
Defined.

(** The channel table is one-to-one. *)
Lemma VOICE_CHANNELS_inj (v w : Voice) :
  (VOICE_CHANNELS (N := Q) v == VOICE_CHANNELS w)%Q -> v = w.
Proof.
  destruct v, w; intros H; try reflexivity; exfalso;
    cbn in H; unfold inject_Z in H; lra.
Qed.

Lemma classifyNotes_channel_table (ds : list (DetectedNote Q)) :
  Forall (fun n => channel n = VOICE_CHANNELS (voice n)) (classifyNotes ds).
Proof.
  unfold classifyNotes. apply Forall_map, Forall_forall.
  intros d _. reflexivity.
Qed.

(** [classifyNotes] keeps the detections, in their order, and gives each
    the channel of its voice, SOPRANO 0, ALTO 1, TENOR 2, BASS 3: two
    classified notes share a channel exactly when they share a voice. *)
Theorem classifyNotes_channels (ds : list (DetectedNote Q)) :
  map (@note Q) (classifyNotes ds) = ds /\
  Forall (fun n => channel n = VOICE_CHANNELS (voice n)) (classifyNotes ds) /\
  forall n m, In n (classifyNotes ds) -> In m (classifyNotes ds) ->
    ((channel n == channel m)%Q <-> voice n = voice m).
Proof.
  pose proof (classifyNotes_channel_table ds) as HF.
  split; [|split; [exact HF|]].
  - unfold classifyNotes. rewrite map_map. cbn [note classifyNote].
    apply map_id.
  - intros n m Hn Hm. rewrite Forall_forall in HF.
    rewrite (HF n Hn), (HF m Hm). split.
    + apply VOICE_CHANNELS_inj.
    + intros ->. reflexivity.
Qed.

End ClassifierStaff.

Section ClassifierTables.
Import VoiceClassifier.
Local Open Scope Z_scope.

Lemma positionLookup_none (table : list (Z * Z)) (position : Q) :
  (forall k v, In (k, v) table -> ~ (position == inject_Z k)%Q) ->
  positionLookup table position = None.
Proof.
  intros H. unfold positionLookup.
  destruct (find _ table) as [[k v]|] eqn:E; [|reflexivity].
  apply find_some in E. destruct E as [Hin Heq].
  exfalso. apply (H k v Hin). apply Qeq_bool_iff. exact Heq.
Qed.

Lemma table_keys (table : list (Z * Z)) (k v : Z) :
  table = TREBLE_NOTE_POSITIONS \/ table = BASS_NOTE_POSITIONS ->
  In (k, v) table -> 0 <= k <= 10.
Proof.
  intros [-> | ->] Hin; cbn in Hin;
    repeat (destruct Hin as [Hin | Hin];
            [injection Hin as <- <-; lia|]); contradiction.
Qed.

(** The staff positions 0 to 10 give the pitches 83 down to 63 in the
    treble clef and 71 down to 51 in the bass clef, two semitones a step
    and the bass an octave below the treble; every other position, a
    fraction or a position off the staff, gives the default, 60 in the
    treble clef and 48 in the bass clef. *)
Theorem getPitchFromPosition_table :
  (forall k, 0 <= k <= 10 ->
     getPitchFromTreblePosition (inject_Z k) = inject_Z (83 - 2 * k) /\
     getPitchFromBassPosition (inject_Z k) = inject_Z (71 - 2 * k)) /\
  (forall position : Q,
     (forall k, 0 <= k <= 10 -> ~ (position == inject_Z k)%Q) ->
     getPitchFromTreblePosition position = 60%Q /\
     getPitchFromBassPosition position = 48%Q).
Proof.
  split.
  - intros k Hk.
    assert (Hcases : k = 0 \/ k = 1 \/ k = 2 \/ k = 3 \/ k = 4 \/ k = 5 \/
                     k = 6 \/ k = 7 \/ k = 8 \/ k = 9 \/ k = 10) by lia.
    repeat (destruct Hcases as [-> | Hcases]; [split; reflexivity|]).
    subst k. split; reflexivity.
  - intros position Hoff.
    unfold getPitchFromTreblePosition, getPitchFromBassPosition.
    rewrite !positionLookup_none; [split; reflexivity | |].
    + intros k v Hin. apply Hoff. eapply table_keys; [right; reflexivity | exact Hin].
    + intros k v Hin. apply Hoff. eapply table_keys; [left; reflexivity | exact Hin].
Qed.

End ClassifierTables.

Section ClassifierCounting.
Import VoiceClassifier.
Context {N : Type} {JSN : JSNumber N}.

Lemma sameVoice_true (v w : Voice) : sameVoice v w = true <-> v = w.
Proof. destruct v, w; cbn; split; intros H; congruence. Qed.

(** The four lists of [getNotesByVoice] split the notes: together they
    hold each note once, and each holds the notes of its voice only. *)
Theorem getNotesByVoice_partition (notes : list (ClassifiedNote N)) :
  Permutation notes
    (getNotesByVoice notes SOPRANO ++ getNotesByVoice notes ALTO
     ++ getNotesByVoice notes TENOR ++ getNotesByVoice notes BASS) /\
  forall v n, In n (getNotesByVoice notes v) <-> In n notes /\ voice n = v.
Proof.
  split.
  - induction notes as [|n notes IH]; [reflexivity|].
    unfold getNotesByVoice in *. cbn [filter].
    destruct (voice n); cbn [sameVoice app].
    + constructor. exact IH.
    + apply Permutation_cons_app. exact IH.
    + rewrite !app_assoc. apply Permutation_cons_app.
      rewrite <- !app_assoc. exact IH.
    + rewrite !app_assoc. apply Permutation_cons_app.
      rewrite <- !app_assoc. exact IH.
  - intros v n. unfold getNotesByVoice.
    rewrite filter_In, sameVoice_true. reflexivity.
Qed.

Lemma countVoices_fold (notes : list (ClassifiedNote N)) (counts : Voice -> Z)
    (v : Voice) :
  fold_left
    (fun voiceCounts n =>
       fun w => if sameVoice (voice n) w
                then (voiceCounts w + 1)%Z else voiceCounts w)
    notes counts v
  = (counts v + Z.of_nat (List.length (getNotesByVoice notes v)))%Z.
Proof.
  revert counts. induction notes as [|n notes IH]; intros counts.
  - cbn. lia.
  - cbn [fold_left]. rewrite IH. unfold getNotesByVoice. cbn [filter].
    destruct (sameVoice (voice n) v); cbn [List.length]; lia.
Qed.

(** [getDominantVoice] does not find the voice with most notes.  Its
    [reduce] starts from the entry of soprano, looks the count up under
    that entry, finds [undefined], and keeps the entry at every step: for
    every list of notes the result is the pair of soprano and the number
    of soprano notes, never the name of a voice. *)
Theorem getDominantVoice_soprano_entry (notes : list (ClassifiedNote N)) :
  getDominantVoice notes =
  EntryOf SOPRANO (Z.of_nat (List.length (getNotesByVoice notes SOPRANO))).
Proof.
  unfold getDominantVoice. cbn [fold_left countUnder gt_maybe].
  unfold countVoices. rewrite countVoices_fold. reflexivity.
Qed.

End ClassifierCounting.

(** ** Sequence builder: the voice sub-streams *)

Section BuilderVoices.
Import MIDIGenerator.
Import VoiceClassifier(Voice, SOPRANO, ALTO, TENOR, BASS, ClassifiedNote, note).
Context {N : Type} {JSN : JSNumber N}.
Local Open Scope js_scope.

Lemma Voice_eqb_true (v w : Voice) : Voice_eqb v w = true <-> v = w.
Proof. destruct v, w; cbn; split; intros H; congruence. Qed.

Lemma generateStep_voices (ns : list (ClassifiedNote N)) (st : GenState N)
    (sub : Voice -> list (MIDIEvent N)) :
  (forall v, gs_voiceEvents st v = Some (sub v)) ->
  forall v,
    gs_voiceEvents (fold_left generateStep ns st) v =
    Some (sub v ++ voiceLayout v (gs_currentTime st) ns).
Proof.
  revert st sub. induction ns as [|n ns IH]; intros st sub Hsub v.
  - cbn. rewrite app_nil_r. apply Hsub.
  - cbn [fold_left].
    rewrite (IH (generateStep st n)
               (fun w => if Voice_eqb (VoiceClassifier.voice n) w
                         then sub w ++ notePair (n, gs_currentTime st)
                         else sub w)).
    + unfold voiceLayout. cbn [combine cursors flat_map fst gs_currentTime generateStep].
      destruct (Voice_eqb (VoiceClassifier.voice n) v);
        rewrite <- ?app_assoc; reflexivity.
    + intros w. cbn [generateStep gs_voiceEvents]. unfold voicePush.
      rewrite (Hsub (VoiceClassifier.voice n)).
      destruct (Voice_eqb (VoiceClassifier.voice n) w) eqn:E.
      * apply Voice_eqb_true in E. subst w. reflexivity.
      * apply Hsub.
Qed.

Lemma getVoiceEvents_generateSequence
    (notes : list (ClassifiedNote N)) (bpm : N) (v : Voice) :
  getVoiceEvents (generateSequence notes bpm) v =
  voiceLayout v (of_Z 0) (sortedNotes notes).
Proof.
  unfold getVoiceEvents, generateSequence, generateLoop. cbn [voices].
  rewrite (@generateStep_voices (sortedNotes notes) _ (fun _ => []));
    [reflexivity | intros w; reflexivity].
Qed.

Lemma layout_voices_perm (c : N) (ns : list (ClassifiedNote N)) :
  Permutation (layout c ns)
    (voiceLayout SOPRANO c ns ++ voiceLayout ALTO c ns
     ++ voiceLayout TENOR c ns ++ voiceLayout BASS c ns).
Proof.
  revert c. induction ns as [|n ns IH]; intros c; [reflexivity|].
  unfold layout, voiceLayout in *.
  cbn [combine cursors flat_map fst].
  specialize (IH (c + VoiceClassifier.duration (note n))).
  remember (notePair (n, c)) as pair eqn:Hpair. clear Hpair.
  destruct (VoiceClassifier.voice n); cbn [Voice_eqb]; rewrite ?app_nil_l.
  - rewrite <- app_assoc. apply Permutation_app_head. exact IH.
  - rewrite <- app_assoc.
    rewrite (Permutation_app_swap_app _ pair).
    apply Permutation_app_head. exact IH.
  - rewrite <- app_assoc.
    rewrite (app_assoc _ _ (pair ++ _)).
    rewrite (Permutation_app_swap_app _ pair).
    apply Permutation_app_head. rewrite <- app_assoc. exact IH.
  - rewrite 2 (app_assoc _ _ (pair ++ _)).
    rewrite (Permutation_app_swap_app _ pair).
    apply Permutation_app_head. rewrite <- !app_assoc. exact IH.
Qed.

Lemma events_voices_perm (notes : list (ClassifiedNote N)) (bpm : N) :
  Permutation (events (generateSequence notes bpm))
    (getVoiceEvents (generateSequence notes bpm) SOPRANO
     ++ getVoiceEvents (generateSequence notes bpm) ALTO
     ++ getVoiceEvents (generateSequence notes bpm) TENOR
     ++ getVoiceEvents (generateSequence notes bpm) BASS).
Proof.
  rewrite !getVoiceEvents_generateSequence.
  rewrite generateSequence_events_perm. apply layout_voices_perm.
Qed.

(** The sub-stream of a voice in the built sequence holds the events of
    the notes of that voice and no others, in the order the notes were
    laid out, each with the times it has in the full stream. *)
Theorem generateSequence_voice_substream
    (notes : list (ClassifiedNote N)) (bpm : N) (v : Voice) :
  getVoiceEvents (generateSequence notes bpm) v =
  flat_map
    (fun nc => if Voice_eqb (VoiceClassifier.voice (fst nc)) v
               then notePair nc else [])
    (combine (sortedNotes notes) (cursors (of_Z 0) (sortedNotes notes))).
Proof. apply getVoiceEvents_generateSequence. Qed.

(** The four sub-streams split the events of the built sequence: taken
    together they hold every event of the full stream once. *)
Theorem generateSequence_voices_partition
    (notes : list (ClassifiedNote N)) (bpm : N) :
  let s := generateSequence notes bpm in
  Permutation (events s)
    (getVoiceEvents s SOPRANO ++ getVoiceEvents s ALTO
     ++ getVoiceEvents s TENOR ++ getVoiceEvents s BASS).
Proof. intros s. apply events_voices_perm. Qed.

End BuilderVoices.

(** ** Sequence builder: order of notes and exact layout *)

Section SortStable.
Context {A : Type}.
Variable key : A -> Q.

(** A list already in non-decreasing order of the key is left as it is:
    no two elements change places, equal keys included. *)
Lemma Array_sort_sorted_id (l : list A) :
  Sorted (fun a b => (key a <= key b)%Q) l ->
  Array_sort (fun a b => (key a - key b)%Q) l = l.
Proof.
  unfold Array_sort.
  induction 1 as [|x l Hs IH Hd]; [reflexivity|].
  cbn [fold_right]. rewrite IH.
  destruct Hd as [|y l Hxy]; [reflexivity|].
  cbn [sort_insert].
  q_case_lt (of_Z 0 : Q) (key x - key y)%Q; [|reflexivity].
  cbn in E. unfold inject_Z in E. lra.
Qed.

End SortStable.

Section BuilderOrder.
Import MIDIGenerator.
Import VoiceClassifier(ClassifiedNote, note).

Lemma untimed_sorted (notes : list (ClassifiedNote Q)) :
  Forall (fun n => VoiceClassifier.timestamp (note n) = None) notes ->
  Sorted (fun a b => (timestampKey a <= timestampKey b)%Q) notes.
Proof.
  induction 1 as [|n l Hn Hl IH]; [constructor|].
  constructor; [exact IH|].
  destruct Hl as [|m l Hm _]; constructor.
  unfold timestampKey. rewrite Hn, Hm. cbn. lra.
Qed.


End BuilderOrder.

Section BuilderExactLayout.
Import MIDIGenerator.
Import VoiceClassifier(ClassifiedNote, note).

Lemma generateStep_fold_time (ns : list (ClassifiedNote Q)) (st : GenState Q) :
  gs_currentTime (fold_left generateStep ns st) = endCursor (gs_currentTime st) ns.
Proof.
  revert st. induction ns as [|n ns IH]; intros st; [reflexivity|].
  cbn [fold_left]. rewrite IH. reflexivity.
Qed.

Lemma layout_head (c : Q) (ns : list (ClassifiedNote Q)) (e : MIDIEvent Q) :
  (time e <= c)%Q ->
  HdRel (fun a b => (time a <= time b)%Q) e (layout c ns).
Proof.
  intros H. destruct ns as [|n ns]; constructor. exact H.
Qed.

Lemma layout_sorted (c : Q) (ns : list (ClassifiedNote Q)) :
  Forall nonNegative ns ->
  Sorted (fun a b => (time a <= time b)%Q) (layout c ns).
Proof.
  intros H. revert c. induction H as [|n ns Hn _ IH]; intros c.
  - constructor.
  - change (layout c (n :: ns)) with
      (noteOnAt n c :: noteOffAt n (c + VoiceClassifier.duration (note n))%Q
       :: layout (c + VoiceClassifier.duration (note n))%Q ns).
    unfold nonNegative in Hn.
    constructor; [constructor; [apply IH|] | constructor].
    + apply layout_head. cbn. lra.
    + cbn. lra.
Qed.

Lemma endCursor_le (c : Q) (ns : list (ClassifiedNote Q)) :
  Forall nonNegative ns -> (c <= endCursor c ns)%Q.
Proof.
  intros H. revert c. induction H as [|n ns Hn _ IH]; intros c.
  - cbn. lra.
  - cbn [endCursor fold_left]. unfold nonNegative in Hn.
    specialize (IH (c + VoiceClassifier.duration (note n))%Q).
    unfold endCursor in IH. lra.
Qed.

Lemma layout_bounds (c : Q) (ns : list (ClassifiedNote Q)) :
  Forall nonNegative ns ->
  Forall (fun e => (c <= time e <= endCursor c ns)%Q) (layout c ns).
Proof.
  intros H. revert c. induction H as [|n ns Hn Hns IH]; intros c.
  - constructor.
  - change (layout c (n :: ns)) with
      (noteOnAt n c :: noteOffAt n (c + VoiceClassifier.duration (note n))%Q
       :: layout (c + VoiceClassifier.duration (note n))%Q ns).
    change (endCursor c (n :: ns)) with
      (endCursor (c + VoiceClassifier.duration (note n))%Q ns).
    pose proof (endCursor_le (c + VoiceClassifier.duration (note n))%Q Hns) as Hend.
    unfold nonNegative in Hn.
    constructor; [cbn; lra|]. constructor; [cbn; lra|].
    eapply Forall_impl; [|apply IH]. cbn. intros e He. lra.
Qed.

Lemma layout_last (c : Q) (ns : list (ClassifiedNote Q)) :
  last (map time (layout c ns)) c = endCursor c ns.
Proof.
  revert c. induction ns as [|n ns IH]; intros c; [reflexivity|].
  change (layout c (n :: ns)) with
    (noteOnAt n c :: noteOffAt n (c + VoiceClassifier.duration (note n))%Q
     :: layout (c + VoiceClassifier.duration (note n))%Q ns).
  cbn [map]. rewrite !last_cons. cbn [time noteOffAt]. apply IH.
Qed.

(** When no duration is negative the events come out exactly as laid out,
    note after note in timestamp order, each NOTE_ON where the previous
    NOTE_OFF is: the final sort moves nothing.  The total duration is
    then the time of the last event (0 without events) and bounds the
    time of every event. *)
Theorem generateSequence_exact_layout
    (notes : list (ClassifiedNote Q)) (bpm : Q) :
  Forall (fun n => (0 <= VoiceClassifier.duration (note n))%Q) notes ->
  let s := generateSequence notes bpm in
  events s = layout 0%Q (sortedNotes notes) /\
  totalDuration s = last (map time (events s)) 0%Q /\
  Forall (fun e => (0 <= time e <= totalDuration s)%Q) (events s).
Proof.
  intros Hnn s.
  assert (Hs : Forall nonNegative (sortedNotes notes)).
  { eapply Permutation_Forall; [symmetry; apply Array_sort_perm | exact Hnn]. }
  assert (He : events s = layout 0%Q (sortedNotes notes)).
  { subst s. unfold generateSequence. cbn [events].
    rewrite generateLoop_events.
    apply (Array_sort_sorted_id (@time Q)). apply layout_sorted, Hs. }
  assert (Ht : totalDuration s = endCursor 0%Q (sortedNotes notes)).
  { subst s. unfold generateSequence, generateLoop. cbn [totalDuration].
    rewrite generateStep_fold_time. reflexivity. }
  split; [exact He|]. rewrite He, Ht. split.
  - symmetry. apply layout_last.
  - apply layout_bounds, Hs.
Qed.

Lemma generateSequence_exact_layout_witness :
  let s := generateSequence three_notes 120%Q in
  events s = layout 0%Q (sortedNotes three_notes) /\
  totalDuration s = last (map time (events s)) 0%Q /\
  Forall (fun e => (0 <= time e <= totalDuration s)%Q) (events s).
Proof.
  apply (@generateSequence_exact_layout three_notes 120%Q).
  repeat constructor; cbn; lra.
Defined.

End BuilderExactLayout.

(** ** [generateSequenceWithTiming] *)

Section SortRelated.
Context {A : Type}.
Variables (R : A -> A -> Prop) (cmp cmp' : A -> A -> Q).
Hypothesis same_test : forall a a' b b', R a a' -> R b b' ->
  num_ltb (of_Z 0) (cmp a b) = num_ltb (of_Z 0) (cmp' a' b').

Lemma sort_insert_related (x x' : A) (l l' : list A) :
  R x x' -> Forall2 R l l' ->
  Forall2 R (sort_insert cmp x l) (sort_insert cmp' x' l').
Proof.
  intros Hx Hl. induction Hl as [|y y' l l' Hy Hl IH]; cbn [sort_insert].
  - constructor; [exact Hx | constructor].
  - rewrite (same_test Hx Hy).
    destruct (num_ltb (of_Z 0) (cmp' x' y')).
    + constructor; [exact Hy | exact IH].
    + constructor; [exact Hx|]. constructor; [exact Hy | exact Hl].
Qed.

(** Two lists related element by element, sorted by comparators that
    agree on related elements, come out related element by element. *)
Lemma Array_sort_related (l l' : list A) :
  Forall2 R l l' -> Forall2 R (Array_sort cmp l) (Array_sort cmp' l').
Proof.
  unfold Array_sort. induction 1 as [|x x' l l' Hx Hl IH]; cbn [fold_right].
  - constructor.
  - apply sort_insert_related; assumption.
Qed.

End SortRelated.

Section WithTiming.
Import MIDIGenerator.
Import VoiceClassifier(Voice, ClassifiedNote, note).

Lemma timestampKey_withTimestamp (t : Q) (n : ClassifiedNote Q) :
  (timestampKey (withTimestamp t n) == t)%Q.
Proof.
  unfold timestampKey, withTimestamp. cbn.
  destruct (Qeq_bool t 0) eqn:E; cbn; [|reflexivity].
  apply Qeq_bool_iff in E. symmetry. exact E.
Qed.

Lemma timedNotesFrom_shifted (index : nat) (startTime : Q)
    (notes : list (ClassifiedNote Q)) :
  Forall2 (shifted startTime)
    (timedNotesFrom index startTime notes) (timedNotesFrom index 0%Q notes).
Proof.
  revert index. induction notes as [|n notes IH]; intros index;
    cbn [timedNotesFrom]; constructor; [|apply IH].
  repeat split; try reflexivity.
  rewrite !timestampKey_withTimestamp.
  change (startTime + of_Z (Z.of_nat index)
            * js_or_else (Some (VoiceClassifier.duration (note n))) (of_Z 1))%js
    with (startTime + inject_Z (Z.of_nat index)
            * js_or_else (Some (VoiceClassifier.duration (note n))) 1)%Q.
  change (0 + of_Z (Z.of_nat index)
            * js_or_else (Some (VoiceClassifier.duration (note n))) (of_Z 1))%js
    with (0 + inject_Z (Z.of_nat index)
            * js_or_else (Some (VoiceClassifier.duration (note n))) 1)%Q.
  ring.
Qed.

Lemma shifted_pair (shift c : Q) (n n' : ClassifiedNote Q) :
  shifted shift n n' ->
  notePair (n, c) = notePair (n', c) /\
  VoiceClassifier.duration (note n) = VoiceClassifier.duration (note n') /\
  VoiceClassifier.voice n = VoiceClassifier.voice n'.
Proof.
  intros (Hp & Hd & Hc & Hv & _).
  unfold notePair, noteOnAt, noteOffAt. rewrite Hp, Hd, Hc.
  repeat split; assumption.
Qed.

Lemma shifted_layout (shift c : Q) (ns ns' : list (ClassifiedNote Q)) :
  Forall2 (shifted shift) ns ns' ->
  layout c ns = layout c ns' /\ endCursor c ns = endCursor c ns' /\
  forall v, voiceLayout v c ns = voiceLayout v c ns'.
Proof.
  intros H. revert c. induction H as [|n n' ns ns' Hn _ IH]; intros c.
  - repeat split.
  - destruct (shifted_pair c Hn) as (Hpair & Hd & Hv).
    destruct (IH (c + VoiceClassifier.duration (note n'))%Q) as (IH1 & IH2 & IH3).
    change (layout c (n :: ns)) with
      (notePair (n, c) ++ layout (c + VoiceClassifier.duration (note n))%Q ns).
    change (layout c (n' :: ns')) with
      (notePair (n', c) ++ layout (c + VoiceClassifier.duration (note n'))%Q ns').
    change (endCursor c (n :: ns)) with
      (endCursor (c + VoiceClassifier.duration (note n))%Q ns).
    change (endCursor c (n' :: ns')) with
      (endCursor (c + VoiceClassifier.duration (note n'))%Q ns').
    rewrite Hpair, Hd, IH1, IH2. repeat split.
    intros v.
    change (voiceLayout v c (n :: ns)) with
      ((if Voice_eqb (VoiceClassifier.voice n) v then notePair (n, c) else [])
       ++ voiceLayout v (c + VoiceClassifier.duration (note n))%Q ns).
    change (voiceLayout v c (n' :: ns')) with
      ((if Voice_eqb (VoiceClassifier.voice n') v then notePair (n', c) else [])
       ++ voiceLayout v (c + VoiceClassifier.duration (note n'))%Q ns').
    rewrite Hpair, Hd, Hv, IH3. reflexivity.
Qed.

(** In exact arithmetic [startTime] has no effect: the sequence built
    with any start time has the events, the total duration, the tempo and
    the sub-streams of the sequence built with start time 0.  The
    timestamps it computes only order the notes, and a common shift
    orders them alike.  In binary64 the shift is rounded and can change
    the order: with a start time of 10^17 the timestamps of notes of
    durations 1, 3 and 1 all round to 10^17, and the notes stay in the
    order given, where a start time of 0 puts the third before the
    second. *)
Theorem generateSequenceWithTiming_startTime :
  (forall (notes : list (ClassifiedNote Q)) (startTime bpm : Q),
     let s := generateSequenceWithTiming notes startTime bpm in
     let s0 := generateSequenceWithTiming notes 0%Q bpm in
     events s = events s0 /\ totalDuration s = totalDuration s0 /\
     tempo s = tempo s0 /\
     forall v, getVoiceEvents s v = getVoiceEvents s0 v) /\
  map (fun e => (type e, pitch e, time e))
      (events (generateSequenceWithTiming uneven_notes 0%float 120%float))
  = [(noteOn, 60, 0); (noteOff, 60, 1); (noteOn, 62, 1); (noteOff, 62, 2);
     (noteOn, 61, 2); (noteOff, 61, 5)]%float /\
  map (fun e => (type e, pitch e, time e))
      (events (generateSequenceWithTiming uneven_notes
                 100000000000000000%float 120%float))
  = [(noteOn, 60, 0); (noteOff, 60, 1); (noteOn, 61, 1); (noteOff, 61, 4);
     (noteOn, 62, 4); (noteOff, 62, 5)]%float.
Proof.
  split; [|split; vm_compute; reflexivity].
  intros notes startTime bpm s s0.
  assert (Hs : Forall2 (shifted startTime)
                 (sortedNotes (timedNotesFrom 0 startTime notes))
                 (sortedNotes (timedNotesFrom 0 0%Q notes))).
  { apply (@Array_sort_related _ (shifted startTime)
             (fun a b => (timestampKey a - timestampKey b)%Q)
             (fun a b => (timestampKey a - timestampKey b)%Q)).
    - intros a a' b b' (_ & _ & _ & _ & Ha) (_ & _ & _ & _ & Hb).
      cbn. f_equal. apply eq_true_iff_eq. rewrite !Qle_bool_iff.
      unfold inject_Z. split; intros H; lra.
    - apply timedNotesFrom_shifted. }
  destruct (shifted_layout 0%Q Hs) as (HL & HE & HV).
  subst s s0. unfold generateSequenceWithTiming.
  split; [|split; [|split; [reflexivity|]]].
  - unfold generateSequence. cbn [events].
    rewrite !generateLoop_events. change (of_Z 0 : Q) with 0%Q.
    rewrite HL. reflexivity.
  - unfold generateSequence, generateLoop. cbn [totalDuration].
    rewrite !generateStep_fold_time. exact HE.
  - intros v. rewrite !getVoiceEvents_generateSequence. apply HV.
Qed.

End WithTiming.

(** ** Transforms: how they compose *)

Section MuteAlgebra.
Import MIDIGenerator.
Import VoiceClassifier(Voice).
Context {N : Type} {JSN : JSNumber N}.
Local Open Scope js_scope.

(** Muting is idempotent, and muting two voices gives the same sequence
    in either order. *)
Theorem muteVoice_idempotent_commutes (s : MIDISequence N) (v w : Voice) :
  muteVoice (muteVoice s v) v = muteVoice s v /\
  muteVoice (muteVoice s v) w = muteVoice (muteVoice s w) v.
Proof.
  unfold muteVoice. cbn [tempo events totalDuration voices].
  split; f_equal; rewrite !map_map; apply map_ext; intros e.
  - destruct (channel e === getChannelForVoice v) eqn:E; cbn [channel];
      rewrite E; reflexivity.
  - destruct (channel e === getChannelForVoice v) eqn:Ev;
      destruct (channel e === getChannelForVoice w) eqn:Ew;
      cbn [channel type pitch velocity time duration];
      rewrite ?Ev, ?Ew; reflexivity.
Qed.

(** Muting and rescaling commute: a voice may be muted before or after
    the tempo is changed. *)
Theorem muteVoice_adjustTempo_commute
    (s : MIDISequence N) (v : Voice) (newTempo : N) :
  adjustTempo (muteVoice s v) newTempo = muteVoice (adjustTempo s newTempo) v.
Proof.
  unfold muteVoice, adjustTempo. cbn [tempo events totalDuration voices].
  f_equal. rewrite !map_map. apply map_ext. intros e.
  cbn [channel].
  destruct (channel e === getChannelForVoice v); reflexivity.
Qed.

End MuteAlgebra.

Section TempoExact.
Import MIDIGenerator.

Lemma Sorted_map (A B : Type) (R : A -> A -> Prop) (R' : B -> B -> Prop)
    (f : A -> B) (l : list A) :
  (forall a b, R a b -> R' (f a) (f b)) ->
  Sorted R l -> Sorted R' (map f l).
Proof.
  intros Hf. induction 1 as [|x l Hs IH Hd]; cbn [map]; constructor.
  - exact IH.
  - destruct Hd; cbn [map]; constructor. apply Hf. assumption.
Qed.

(** Setting the tempo a sequence already has, when it is not 0, changes
    nothing: times and durations are multiplied by a ratio of 1. *)
Theorem adjustTempo_own_tempo (s : MIDISequence Q) :
  ~ (tempo s == 0)%Q ->
  let s' := adjustTempo s (tempo s) in
  tempo s' = tempo s /\ (totalDuration s' == totalDuration s)%Q /\
  voices s' = voices s /\
  Forall2 sameEvent (events s) (events s').
Proof.
  intros Hnz s'.
  assert (Hr : forall x : Q, (x * (tempo s / tempo s) == x)%Q)
    by (intros x; field; exact Hnz).
  subst s'. unfold adjustTempo. cbn [tempo totalDuration voices events].
  split; [reflexivity|]. split; [apply Hr|]. split; [reflexivity|].
  induction (events s) as [|e es IH]; cbn [map]; constructor; [|exact IH].
  unfold sameEvent. cbn [type pitch velocity channel time duration].
  repeat split; [apply Hr|].
  destruct (duration e) as [d|]; [|exact I].
  destruct (truthy d); cbn; [apply Hr | reflexivity].
Qed.

Lemma adjustTempo_own_tempo_witness :
  let s' := adjustTempo quarter_note_sequence (tempo quarter_note_sequence) in
  tempo s' = tempo quarter_note_sequence /\
  (totalDuration s' == totalDuration quarter_note_sequence)%Q /\
  voices s' = voices quarter_note_sequence /\
  Forall2 sameEvent (events quarter_note_sequence) (events s').
Proof.
  apply (@adjustTempo_own_tempo quarter_note_sequence).
  cbn. lra.
Defined.

(** Between positive tempos, rescaling keeps the events in order of time,
    and keeps their number, kinds, pitches, velocities and channels. *)
Theorem adjustTempo_keeps_order (s : MIDISequence Q) (newTempo : Q) :
  (0 < tempo s)%Q -> (0 < newTempo)%Q ->
  Sorted (fun a b => (time a <= time b)%Q) (events s) ->
  Sorted (fun a b => (time a <= time b)%Q) (events (adjustTempo s newTempo)) /\
  map (fun e => (type e, pitch e, velocity e, channel e))
      (events (adjustTempo s newTempo))
  = map (fun e => (type e, pitch e, velocity e, channel e)) (events s).
Proof.
  intros Ht Hn Hs.
  assert (Hr : (0 <= tempo s / newTempo)%Q).
  { apply Qlt_le_weak, Qlt_shift_div_l; [exact Hn | lra]. }
  unfold adjustTempo. cbn [events]. split.
  - eapply Sorted_map; [|exact Hs]. cbn [time]. intros a b Hab.
    apply Qmult_le_compat_r; assumption.
  - rewrite map_map. apply map_ext. intros e. reflexivity.
Qed.

Lemma adjustTempo_keeps_order_witness :
  Sorted (fun a b => (time a <= time b)%Q)
         (events (adjustTempo quarter_note_sequence 90%Q)) /\
  map (fun e => (type e, pitch e, velocity e, channel e))
      (events (adjustTempo quarter_note_sequence 90%Q))
  = map (fun e => (type e, pitch e, velocity e, channel e))
        (events quarter_note_sequence).
Proof.
  apply (@adjustTempo_keeps_order quarter_note_sequence 90%Q).
  - reflexivity.
  - reflexivity.
  - repeat constructor. cbn. lra.
Defined.

End TempoExact.

Section MuteSubstream.
Import MIDIGenerator.
Import VoiceClassifier(Voice, SOPRANO, ALTO, TENOR, BASS, DetectedNote,
                       ClassifiedNote, note).

Lemma notePair_channel (n : ClassifiedNote Q) (c : Q) (e : MIDIEvent Q) :
  In e (notePair (n, c)) -> channel e = VoiceClassifier.channel n.
Proof.
  intros [<- | [<- | []]]; reflexivity.
Qed.

Lemma channel_test (w v : Voice) :
  (VoiceClassifier.VOICE_CHANNELS (N := Q) w === getChannelForVoice v)%js = true
  <-> w = v.
Proof.
  destruct w, v; cbn; split; intros H; congruence.
Qed.

(** In a sequence built from classified notes the channel of an event
    tells its voice: an event is in the sub-stream of a voice exactly
    when it is on the channel of that voice.  So [muteVoice] silences the
    events of the sub-stream of the voice and leaves every other event
    of the full stream as it is. *)
Theorem muteVoice_silences_substream
    (ds : list (DetectedNote Q)) (bpm : Q) (v : Voice) :
  let s := generateSequence (VoiceClassifier.classifyNotes ds) bpm in
  (forall e, In e (events s) ->
     (In e (getVoiceEvents s v) <->
      (channel e === getChannelForVoice v)%js = true)) /\
  Forall2 (fun e e' =>
             (In e (getVoiceEvents s v) -> velocity e' = 0%Q) /\
             (~ In e (getVoiceEvents s v) -> e' = e))
          (events s) (events (muteVoice s v)).
Proof.
  intros s.
  set (ns := sortedNotes (VoiceClassifier.classifyNotes ds)).
  assert (Hch : forall n, In n ns ->
                  VoiceClassifier.channel n =
                  VoiceClassifier.VOICE_CHANNELS (VoiceClassifier.voice n)).
  { intros n Hn.
    pose proof (classifyNotes_channel_table ds) as HF.
    rewrite Forall_forall in HF. apply HF.
    subst ns. unfold sortedNotes in Hn.
    eapply Permutation_in; [apply (Array_sort_perm (N := Q)) | exact Hn]. }
  assert (Hsub : getVoiceEvents s v = voiceLayout v 0%Q ns)
    by exact (getVoiceEvents_generateSequence _ bpm v).
  assert (Hiff : forall e, In e (events s) ->
            (In e (getVoiceEvents s v) <->
             (channel e === getChannelForVoice v)%js = true)).
  { intros e He. rewrite Hsub. split.
    - intros Hin. apply in_flat_map in Hin.
      destruct Hin as ([n c] & Hnc & Hin). cbn [fst] in Hin.
      destruct (Voice_eqb (VoiceClassifier.voice n) v) eqn:E; [|contradiction].
      apply Voice_eqb_true in E.
      rewrite (notePair_channel Hin), (Hch n (in_combine_l _ _ _ _ Hnc)).
      apply channel_test. exact E.
    - intros Htest.
      apply (Permutation_in _ (generateSequence_events_perm _ bpm)) in He.
      apply in_flat_map in He. destruct He as ([n c] & Hnc & Hin).
      rewrite (notePair_channel Hin),
        (Hch n (in_combine_l _ _ _ _ Hnc)) in Htest.
      apply channel_test in Htest.
      apply in_flat_map. exists (n, c). split; [exact Hnc|].
      cbn [fst]. rewrite <- Htest.
      replace (Voice_eqb (VoiceClassifier.voice n) (VoiceClassifier.voice n))
        with true by (symmetry; apply Voice_eqb_true; reflexivity).
      exact Hin. }
  split; [exact Hiff|].
  unfold muteVoice. cbn [events].
  assert (Hall : forall l, (forall e, In e l -> In e (events s)) ->
            Forall2 (fun e e' =>
                       (In e (getVoiceEvents s v) -> velocity e' = 0%Q) /\
                       (~ In e (getVoiceEvents s v) -> e' = e))
              l (map (fun event =>
                        if (channel event === getChannelForVoice v)%js then
                          {| type := type event; pitch := pitch event;
                             velocity := of_Z 0; time := time event;
                             channel := channel event;
                             duration := duration event |}
                        else event) l)).
  { induction l as [|e l IH]; intros Hl; cbn [map]; constructor.
    - specialize (Hiff e (Hl e (or_introl eq_refl))).
      destruct (channel e === getChannelForVoice v)%js; split.
      + intros _. reflexivity.
      + intros Hn. exfalso. apply Hn, Hiff. reflexivity.
      + intros Hin. apply Hiff in Hin. discriminate.
      + reflexivity.
    - apply IH. intros e' He'. apply Hl. right. exact He'. }
  apply Hall. intros e He. exact He.
Qed.

End MuteSubstream.

Section MultiVoice.
Import MIDIGenerator.
Import VoiceClassifier(Voice, SOPRANO, ALTO, TENOR, BASS, ClassifiedNote).

Lemma multiVoice_fold (s : MIDISequence Q) (vs : list Voice)
    (acc : list (MIDIEvent Q)) :
  fold_left (fun events v => events ++ getVoiceEvents s v) vs acc
  = acc ++ flat_map (getVoiceEvents s) vs.
Proof.
  revert acc. induction vs as [|v vs IH]; intros acc; cbn.
  - rewrite app_nil_r. reflexivity.
  - rewrite IH, app_assoc. reflexivity.
Qed.

(** The events of several voices are those of their sub-streams, each
    taken as often as its voice is named, in non-decreasing order of
    time; asked for the four voices of a built sequence, they are the
    events of the full stream. *)
Theorem getMultiVoiceEvents_merge (s : MIDISequence Q) (vs : list Voice) :
  Permutation (getMultiVoiceEvents s vs) (flat_map (getVoiceEvents s) vs) /\
  Sorted (fun a b => (time a <= time b)%Q) (getMultiVoiceEvents s vs) /\
  forall (notes : list (ClassifiedNote Q)) (bpm : Q),
    s = generateSequence notes bpm ->
    Permutation (getMultiVoiceEvents s [SOPRANO; ALTO; TENOR; BASS]) (events s).
Proof.
  assert (HP : forall ws, Permutation (getMultiVoiceEvents s ws)
                            (flat_map (getVoiceEvents s) ws)).
  { intros ws. unfold getMultiVoiceEvents.
    rewrite Array_sort_perm, multiVoice_fold. reflexivity. }
  split; [apply HP|]. split.
  - unfold getMultiVoiceEvents. apply (Array_sort_sorted (@time Q)).
  - intros notes bpm ->. rewrite HP. cbn [flat_map]. rewrite app_nil_r.
    symmetry. apply (events_voices_perm notes bpm).
Qed.

End MultiVoice.

(** ** Binary encoder: sizes and byte order *)

Section EncoderSizes.
Import MIDIGenerator.
Local Open Scope Z_scope.

Lemma variableLengthQuantity_correct_witness :
  vlq_value (Uint8Array (variableLengthQuantity (of_Z 480 : Q))) = 480 /\
  vlq_continued (Uint8Array (variableLengthQuantity (of_Z 480 : Q))).
Proof. apply (@variableLengthQuantity_correct 480). lia. Defined.

Lemma variableLengthQuantity_loop_length (fuel : nat) :
  forall (k : nat) (value : Z) (bytes : list Z),
  value < 128 ^ Z.of_nat k ->
  (List.length (variableLengthQuantity_loop fuel value bytes)
   <= List.length bytes + k)%nat.
Proof.
  induction fuel as [|fuel IH]; intros k value bytes Hv; cbn [variableLengthQuantity_loop].
  - lia.
  - destruct (0 <? value) eqn:E; [|lia].
    apply Z.ltb_lt in E.
    destruct k as [|k]; [cbn in Hv; lia|].
    rewrite Nat2Z.inj_succ, Z.pow_succ_r in Hv by lia.
    specialize (@IH k (Z.shiftr value 7) (Z.lor (Z.land value 127) 128 :: bytes)).
    cbn [List.length] in IH.
    assert (Z.shiftr value 7 < 128 ^ Z.of_nat k).
    { rewrite Z.shiftr_div_pow2 by lia. change (2 ^ 7) with 128.
      apply Z.div_lt_upper_bound; lia. }
    specialize (IH H). lia.
Qed.

Lemma variableLengthQuantity_loop_grows (fuel : nat) (value : Z) (bytes : list Z) :
  (List.length bytes
   <= List.length (variableLengthQuantity_loop fuel value bytes))%nat.
Proof.
  revert value bytes. induction fuel as [|fuel IH]; intros value bytes;
    cbn [variableLengthQuantity_loop]; [lia|].
  destruct (0 <? value); [|lia].
  specialize (IH (Z.shiftr value 7) (Z.lor (Z.land value 127) 128 :: bytes)).
  cbn [List.length] in IH. lia.
Qed.

Lemma variableLengthQuantity_length (value : Q) (k : nat) :
  Z.shiftr (ToInt32 value) 7 < 128 ^ Z.of_nat k ->
  (1 <= List.length (variableLengthQuantity value) <= 1 + k)%nat.
Proof.
  intros H. unfold variableLengthQuantity. rewrite length_map.
  pose proof (@variableLengthQuantity_loop_length 5 k _
                [Z.land (ToInt32 value) 127] H) as Hup.
  pose proof (variableLengthQuantity_loop_grows 5
                (Z.shiftr (ToInt32 value) 7)
                [Z.land (ToInt32 value) 127]) as Hlow.
  cbn [List.length] in Hup, Hlow. lia.
Qed.

Lemma shiftr7_bound (v b : Z) :
  v < 128 * b -> Z.shiftr v 7 < b.
Proof.
  intros H. rewrite Z.shiftr_div_pow2 by lia. change (2 ^ 7) with 128.
  Z.div_mod_to_equations. lia.
Qed.

Lemma variableLengthQuantity_at_most_5 (value : Q) :
  (1 <= List.length (variableLengthQuantity value) <= 5)%nat.
Proof.
  apply (@variableLengthQuantity_length value 4).
  pose proof (wrap32_range (Qtrunc value)) as Hr.
  cbn [ToInt32 Q_JSNumber]. apply shiftr7_bound.
  change (2 ^ 31) with 2147483648 in Hr.
  change (128 ^ Z.of_nat 4) with 268435456. lia.
Qed.

(** A delta takes between one and five bytes, whatever its value; at most
    four when it is below 2^28, the largest quantity of a Standard MIDI
    File; and one, the value itself, when it is below 128. *)
Theorem variableLengthQuantity_size (value : Q) :
  (1 <= List.length (variableLengthQuantity value) <= 5)%nat /\
  (forall v, 0 <= v < 2 ^ 28 ->
     (List.length (variableLengthQuantity (of_Z v : Q)) <= 4)%nat) /\
  (forall v, 0 <= v < 128 ->
     Uint8Array (variableLengthQuantity (of_Z v : Q)) = [v]).
Proof.
  split; [|split].
  - apply variableLengthQuantity_at_most_5.
  - intros v Hv.
    apply (@variableLengthQuantity_length (of_Z v) 3).
    rewrite ToInt32_of_Z, wrap32_small
      by (change (2 ^ 28) with 268435456 in Hv;
          change (2 ^ 31) with 2147483648; lia).
    apply shiftr7_bound. change (2 ^ 28) with 268435456 in Hv.
    change (128 ^ Z.of_nat 3) with 2097152. lia.
  - intros v Hv. unfold variableLengthQuantity.
    rewrite ToInt32_of_Z, wrap32_small
      by (change (2 ^ 31) with 2147483648; lia).
    assert (Hs : Z.shiftr v 7 = 0).
    { rewrite Z.shiftr_div_pow2 by lia. change (2 ^ 7) with 128.
      apply Z.div_small. lia. }
    rewrite Hs. cbn [variableLengthQuantity_loop Z.ltb Z.compare map Uint8Array].
    rewrite ToUint8_of_Z. change 127 with (Z.ones 7).
    rewrite Z.land_ones by lia. change (2 ^ 7) with 128.
    rewrite (Z.mod_small v 128) by lia. rewrite Z.mod_small by lia.
    reflexivity.
Qed.

End EncoderSizes.

Section EncoderBytes.
Import MIDIGenerator.
Local Open Scope Z_scope.






Lemma sequenceToMidiBytes_length (s : MIDISequence Q) :
  List.length (sequenceToMidiBytes s) = (22 + List.length (trackDataOf s))%nat.
Proof.
  unfold sequenceToMidiBytes. rewrite Uint8Array_length, !length_app.
  reflexivity.
Qed.

Lemma eventStream_length (lastTime : Q) (evs : list (MIDIEvent Q)) :
  (4 * List.length evs <= List.length (eventStream lastTime evs)
   <= 8 * List.length evs)%nat.
Proof.
  revert lastTime. induction evs as [|e evs IH]; intros lastTime.
  - cbn. lia.
  - cbn [eventStream]. rewrite !length_app. cbn [List.length].
    specialize (IH (time e)).
    pose proof (variableLengthQuantity_at_most_5 (deltaTime e lastTime)) as Hv.
    lia.
Qed.

(** The encoded file has 31 bytes plus four to eight bytes for each
    event: 22 of chunk headers, 6 of tempo and 3 of end of track. *)
Theorem sequenceToMidiBytes_size (s : MIDISequence Q) :
  (31 + 4 * List.length (events s)
   <= List.length (sequenceToMidiBytes s)
   <= 31 + 8 * List.length (events s))%nat.
Proof.
  rewrite sequenceToMidiBytes_length, trackDataOf_layout, !length_app.
  pose proof (eventStream_length (of_Z 0) (events s)) as H.
  change (List.length (metaEvent (of_Z 81 : Q)
            (numberToBytes (Math_round (of_Z 60000000 / tempo s)%js) 3)))
    with 6%nat.
  change (List.length (metaEvent (of_Z 47 : Q) [])) with 3%nat.
  lia.
Qed.

End EncoderBytes.

Section EncoderValidEvent.
Import MIDIGenerator.
Local Open Scope Z_scope.

Lemma Qtrunc_plus_inject_Z (a b : Z) :
  Qtrunc (inject_Z a + inject_Z b) = a + b.
Proof. unfold Qtrunc. cbn. rewrite Z.quot_1_r. ring. Qed.

Lemma status_nibbles (k c : Z) :
  k = 144 \/ k = 128 -> 0 <= c <= 15 ->
  k + c = Z.lor k c /\ Z.shiftr (k + c) 4 = Z.shiftr k 4 /\
  Z.land (k + c) 15 = c.
Proof.
  intros Hk Hc.
  assert (Hcases : c = 0 \/ c = 1 \/ c = 2 \/ c = 3 \/ c = 4 \/ c = 5 \/
                   c = 6 \/ c = 7 \/ c = 8 \/ c = 9 \/ c = 10 \/ c = 11 \/
                   c = 12 \/ c = 13 \/ c = 14 \/ c = 15) by lia.
  destruct Hk as [-> | ->];
    repeat (destruct Hcases as [-> | Hcases]; [repeat split|]);
    subst; repeat split.
Qed.

(** An event within the ranges of the format, channel 0 to 15 and pitch
    and velocity 0 to 127, is written without loss: the status byte has
    9 (NOTE_ON) or 8 (NOTE_OFF) in its high half and the channel in its
    low half, and the two data bytes are the pitch and the velocity. *)
Theorem statusOf_valid_event (e : MIDIEvent Q) (c p v : Z) :
  channel e = inject_Z c -> pitch e = inject_Z p -> velocity e = inject_Z v ->
  0 <= c <= 15 -> 0 <= p <= 127 -> 0 <= v <= 127 ->
  let kind := match type e with noteOn => 9 | noteOff => 8 end in
  exists status,
    Uint8Array [statusOf e; pitch e; velocity e] = [status; p; v] /\
    Z.shiftr status 4 = kind /\ Z.land status 15 = c.
Proof.
  intros Hc Hp Hv Rc Rp Rv kind.
  exists ((match type e with noteOn => 144 | noteOff => 128 end) + c).
  unfold Uint8Array. cbn [map]. rewrite !ToUint8_Q, Hp, Hv, !Qtrunc_inject_Z.
  rewrite (Z.mod_small p), (Z.mod_small v) by lia.
  unfold statusOf. rewrite Hc. subst kind.
  destruct (type e); change (of_Z 144 + inject_Z c)%js with (inject_Z 144 + inject_Z c)%Q;
    change (of_Z 128 + inject_Z c)%js with (inject_Z 128 + inject_Z c)%Q;
    rewrite Qtrunc_plus_inject_Z, Z.mod_small by lia.
  - destruct (@status_nibbles 144 c) as (_ & H1 & H2); [tauto | lia |].
    rewrite H1, H2. repeat split.
  - destruct (@status_nibbles 128 c) as (_ & H1 & H2); [tauto | lia |].
    rewrite H1, H2. repeat split.
Qed.

Lemma statusOf_valid_event_witness :
  let e := {| type := noteOff; pitch := inject_Z 60; velocity := inject_Z 0;
              time := 1%Q; channel := inject_Z 1; duration := None |} in
  exists status,
    Uint8Array [statusOf e; pitch e; velocity e] = [status; 60; 0] /\
    Z.shiftr status 4 = 8 /\ Z.land status 15 = 1.
Proof.
  apply (@statusOf_valid_event
           {| type := noteOff; pitch := inject_Z 60; velocity := inject_Z 0;
              time := 1%Q; channel := inject_Z 1; duration := None |}
           1 60 0); try reflexivity; lia.
Defined.

End EncoderValidEvent.

(** ** Binary encoder: how the call ends *)

Section EncoderCompletion.
Import MIDIGenerator.
Local Open Scope Z_scope.

Lemma push_spread_fits (maxArguments : Z) (array items : list Q) :
  Z.of_nat (List.length items) <= maxArguments ->
  push_spread maxArguments array items = Returns (array ++ items).
Proof.
  intros H. unfold push_spread.
  destruct (Z.of_nat (List.length items) <=? maxArguments) eqn:E;
    [reflexivity | apply Z.leb_gt in E; lia].
Qed.

(** A delta has at most five bytes, so the loop over the events throws
    in no engine that accepts five arguments. *)
Lemma encodeStep_completion_fold (maxArguments : Z)
    (evs : list (MIDIEvent Q)) (st : list Q * Q) :
  5 <= maxArguments ->
  fold_left (encodeStep_completion maxArguments) evs (Returns st)
  = Returns (fold_left encodeStep evs st).
Proof.
  intros Hm. revert st. induction evs as [|e evs IH]; intros [trackData lastTime];
    [reflexivity|].
  cbn [fold_left]. rewrite <- IH. f_equal.
  unfold encodeStep_completion, encodeStep. cbn [andThen].
  rewrite push_spread_fits; [reflexivity|].
  pose proof (variableLengthQuantity_at_most_5 (deltaTime e lastTime)). lia.
Qed.

(** Whether the call returns is a matter of the length of the track
    data, the argument list of [bytes.push(...trackData)], and of
    nothing else. *)
Lemma sequenceToMidiBytes_completion_spec (maxArguments : Z)
    (s : MIDISequence Q) :
  6 <= maxArguments ->
  sequenceToMidiBytes_completion maxArguments s =
  if Z.of_nat (List.length (trackDataOf s)) <=? maxArguments
  then Returns (sequenceToMidiBytes s)
  else Throws (list Z) "RangeError".
Proof.
  intros Hm. unfold sequenceToMidiBytes_completion.
  rewrite (@push_spread_fits maxArguments [] (stringToBytes "MThd"))
    by (change (List.length (stringToBytes (N := Q) "MThd")) with 4%nat; lia).
  cbn [andThen].
  rewrite (@push_spread_fits maxArguments []
             (metaEvent (of_Z 81)
                (numberToBytes (Math_round (of_Z 60000000 / tempo s)%js) 3)))
    by (change (List.length
                  (metaEvent (of_Z 81 : Q)
                     (numberToBytes (Math_round (of_Z 60000000 / tempo s)%js) 3)))
          with 6%nat; lia).
  cbn [andThen].
  rewrite encodeStep_completion_fold by lia.
  cbn [andThen].
  rewrite push_spread_fits
    by (change (List.length (metaEvent (of_Z 47 : Q) [])) with 3%nat; lia).
  cbn [andThen].
  rewrite (@push_spread_fits maxArguments _ (stringToBytes "MTrk"))
    by (change (List.length (stringToBytes (N := Q) "MTrk")) with 4%nat; lia).
  cbn [andThen].
  assert (Htrack :
            fst (fold_left encodeStep (events s)
                   ([] ++ metaEvent (of_Z 81)
                            (numberToBytes
                               (Math_round (of_Z 60000000 / tempo s)%js) 3),
                    of_Z 0))
            ++ metaEvent (of_Z 47) [] = trackDataOf s).
  { unfold trackDataOf. cbn [app].
    destruct (fold_left encodeStep (events s) _) as [trackData lastTime].
    reflexivity. }
  rewrite Htrack.
  unfold push_spread.
  destruct (Z.of_nat (List.length (trackDataOf s)) <=? maxArguments);
    reflexivity.
Qed.

Lemma trackDataOf_length (s : MIDISequence Q) :
  (9 + 4 * List.length (events s) <= List.length (trackDataOf s)
   <= 9 + 8 * List.length (events s))%nat.
Proof.
  rewrite trackDataOf_layout, !length_app.
  pose proof (eventStream_length (of_Z 0) (events s)) as H.
  change (List.length (metaEvent (of_Z 81 : Q)
            (numberToBytes (Math_round (of_Z 60000000 / tempo s)%js) 3)))
    with 6%nat.
  change (List.length (metaEvent (of_Z 47 : Q) [])) with 3%nat.
  lia.
Qed.

(** A delta whose 32-bit value is not positive is written as one byte. *)
Lemma variableLengthQuantity_nonpositive (value : Q) :
  ToInt32 value <= 0 ->
  Uint8Array (variableLengthQuantity value) = [Qtrunc value mod 128].
Proof.
  intros Hle. unfold variableLengthQuantity.
  assert (Hs : Z.shiftr (ToInt32 value) 7 <= 0).
  { rewrite Z.shiftr_div_pow2 by lia. change (2 ^ 7) with 128.
    Z.div_mod_to_equations. lia. }
  cbn [variableLengthQuantity_loop].
  destruct (0 <? Z.shiftr (ToInt32 value) 7) eqn:E; [apply Z.ltb_lt in E; lia|].
  cbn [map Uint8Array]. rewrite ToUint8_of_Z.
  change 127 with (Z.ones 7). rewrite Z.land_ones by lia.
  cbn [ToInt32 Q_JSNumber]. unfold wrap32.
  change (2 ^ 31) with 2147483648. change (2 ^ 32) with 4294967296.
  change (2 ^ 7) with 128.
  f_equal. Z.div_mod_to_equations. lia.
Qed.

Lemma Qtrunc_negative (value : Q) :
  (- inject_Z (2 ^ 31) <= value < 0)%Q -> - 2 ^ 31 <= Qtrunc value <= 0.
Proof.
  destruct value as [num den]. unfold Qtrunc, Qle, Qlt, inject_Z. cbn.
  change (2 ^ 31) with 2147483648.
  intros [Hlo Hhi].
  replace num with (- (- num)) by lia.
  rewrite Z.quot_opp_l by lia.
  rewrite Z.quot_div_nonneg by lia.
  assert (0 <= - num / Zpos den) by (apply Z.div_pos; lia).
  assert (- num / Zpos den <= 2147483648)
    by (apply Z.div_le_upper_bound; lia).
  lia.
Qed.

(** The delta is taken as a 32-bit integer before anything else. *)
Lemma variableLengthQuantity_ToInt32 (value : Q) :
  variableLengthQuantity value
  = variableLengthQuantity (of_Z (ToInt32 value) : Q).
Proof.
  unfold variableLengthQuantity. rewrite ToInt32_of_Z.
  rewrite (wrap32_small (z := ToInt32 value)); [reflexivity|].
  cbn [ToInt32 Q_JSNumber]. apply wrap32_range.
Qed.

(** C4, as the code has it: the encoder validates nothing.  Whether the
    call returns depends on the number of bytes of the track data alone,
    which are passed as the arguments of one [push]: it returns when
    they are at most as many as the engine accepts, as they are when
    9 + 8n for n events are accepted, and throws the RangeError of the
    engine otherwise, whatever the events hold.  In the bytes returned
    each event contributes its delta followed by status, pitch and
    velocity, stored as their integer part modulo 256, so that a value
    outside [0,127] is neither refused nor clamped.  The delta is taken
    as a 32-bit integer; a negative one, down to -2^31, is written as
    one byte, the low seven bits of its integer part, and one beyond the
    32-bit range as what remains of it modulo 2^32. *)
Theorem sequenceToMidiBytes_no_validation (maxArguments : Z)
    (s : MIDISequence Q) :
  6 <= maxArguments ->
  sequenceToMidiBytes_completion maxArguments s =
    (if Z.of_nat (List.length (trackDataOf s)) <=? maxArguments
     then Returns (sequenceToMidiBytes s)
     else Throws (list Z) "RangeError") /\
  (9 + 8 * Z.of_nat (List.length (events s)) <= maxArguments ->
   sequenceToMidiBytes_completion maxArguments s
   = Returns (sequenceToMidiBytes s)) /\
  (maxArguments < 9 + 4 * Z.of_nat (List.length (events s)) ->
   sequenceToMidiBytes_completion maxArguments s
   = Throws (list Z) "RangeError") /\
  Forall (fun b => 0 <= b < 256) (sequenceToMidiBytes s) /\
  (forall pre e post, events s = pre ++ e :: post ->
     let delta := deltaTime e (last (map time pre) 0%Q) in
     (exists before after,
        sequenceToMidiBytes s
        = before
          ++ Uint8Array (variableLengthQuantity delta)
          ++ [Qtrunc (statusOf e) mod 256;
              Qtrunc (pitch e) mod 256;
              Qtrunc (velocity e) mod 256]
          ++ after) /\
     variableLengthQuantity delta
     = variableLengthQuantity (of_Z (ToInt32 delta) : Q) /\
     ((- inject_Z (2 ^ 31) <= delta < 0)%Q ->
      Uint8Array (variableLengthQuantity delta) = [Qtrunc delta mod 128])) /\
  Uint8Array (variableLengthQuantity (inject_Z (-4294966996))) = [130; 44].
Proof.
  intros Hm.
  pose proof (sequenceToMidiBytes_completion_spec s Hm) as Hspec.
  pose proof (trackDataOf_length s) as Hlen.
  split; [exact Hspec|]. split; [|split; [|split; [|split]]].
  - intros Hfit. rewrite Hspec.
    destruct (Z.of_nat (List.length (trackDataOf s)) <=? maxArguments) eqn:E;
      [reflexivity | apply Z.leb_gt in E; lia].
  - intros Hfit. rewrite Hspec.
    destruct (Z.of_nat (List.length (trackDataOf s)) <=? maxArguments) eqn:E;
      [apply Z.leb_le in E; lia | reflexivity].
  - apply Uint8Array_range.
  - intros pre e post Hev delta. subst delta. split; [|split].
    + destruct (sequenceToMidiBytes_prefix s) as [hdr Hhdr].
      rewrite Hhdr, trackData_bytes, Hev.
      change (of_Z 0 : Q) with 0%Q.
      rewrite eventStream_app, !Uint8Array_app.
      change (Uint8Array [statusOf e; pitch e; velocity e])
        with [ToUint8 (statusOf e); ToUint8 (pitch e); ToUint8 (velocity e)].
      rewrite (ToUint8_Q (statusOf e)), (ToUint8_Q (pitch e)),
        (ToUint8_Q (velocity e)).
      exists (hdr ++ [255; 81; 3]
              ++ Uint8Array
                   (numberToBytes (Math_round (of_Z 60000000 / tempo s)%js) 3)
              ++ Uint8Array (eventStream 0%Q pre)).
      exists (Uint8Array (eventStream (time e) post) ++ [255; 47; 0]).
      rewrite <- !app_assoc. reflexivity.
    + apply variableLengthQuantity_ToInt32.
    + intros Hneg. apply variableLengthQuantity_nonpositive.
      pose proof (Qtrunc_negative Hneg) as Ht.
      cbn [ToInt32 Q_JSNumber]. rewrite wrap32_small; lia.
  - reflexivity.
Qed.

Lemma sequenceToMidiBytes_no_validation_witness :
  sequenceToMidiBytes_completion 65536 broken_sequence =
    (if Z.of_nat (List.length (trackDataOf broken_sequence)) <=? 65536
     then Returns (sequenceToMidiBytes broken_sequence)
     else Throws (list Z) "RangeError") /\
  (9 + 8 * Z.of_nat (List.length (events broken_sequence)) <= 65536 ->
   sequenceToMidiBytes_completion 65536 broken_sequence
   = Returns (sequenceToMidiBytes broken_sequence)) /\
  (65536 < 9 + 4 * Z.of_nat (List.length (events broken_sequence)) ->
   sequenceToMidiBytes_completion 65536 broken_sequence
   = Throws (list Z) "RangeError") /\
  Forall (fun b => 0 <= b < 256) (sequenceToMidiBytes broken_sequence) /\
  (forall pre e post, events broken_sequence = pre ++ e :: post ->
     let delta := deltaTime e (last (map time pre) 0%Q) in
     (exists before after,
        sequenceToMidiBytes broken_sequence
        = before
          ++ Uint8Array (variableLengthQuantity delta)
          ++ [Qtrunc (statusOf e) mod 256;
              Qtrunc (pitch e) mod 256;
              Qtrunc (velocity e) mod 256]
          ++ after) /\
     variableLengthQuantity delta
     = variableLengthQuantity (of_Z (ToInt32 delta) : Q) /\
     ((- inject_Z (2 ^ 31) <= delta < 0)%Q ->
      Uint8Array (variableLengthQuantity delta) = [Qtrunc delta mod 128])) /\
  Uint8Array (variableLengthQuantity (inject_Z (-4294966996))) = [130; 44].
Proof.
  apply (@sequenceToMidiBytes_no_validation 65536 broken_sequence). lia.
Defined.

(** C4 fails as stated: [broken_sequence] has a pitch and a velocity
    outside [0,127] and a negative delta, and in an engine that accepts
    65536 arguments its encoding completes with bytes: the pitch is
    stored as 200, the velocity 300 as 44, and the delta of -4 as 124. *)
Lemma sequenceToMidiBytes_broken_counterexample :
  Exists (fun e => (127 < pitch e)%Q) (events broken_sequence) /\
  Exists (fun e => (127 < velocity e)%Q) (events broken_sequence) /\
  Exists (fun e => (deltaTime e 2 < 0)%Q) (events broken_sequence) /\
  sequenceToMidiBytes_completion 65536 broken_sequence =
  Returns
    [77; 84; 104; 100; 0; 0; 0; 6; 0; 0; 0; 1; 1; 224;
     77; 84; 114; 107; 0; 0; 0; 17;
     255; 81; 3; 32; 161; 7;
     8; 144; 200; 44;
     124; 128; 200; 0;
     255; 47; 0].
Proof.
  split; [|split; [|split]].
  - apply Exists_cons_hd. reflexivity.
  - apply Exists_cons_hd. reflexivity.
  - apply Exists_cons_tl, Exists_cons_hd. reflexivity.
  - reflexivity.
Qed.

End EncoderCompletion.

(** ** Pipeline: from model outputs to the sequence *)

Section PipelinePitch.
Import OCRPipeline.
Local Open Scope Z_scope.

(** For an index that is not negative the pitch is 36 plus the index
    modulo 61: it lies in [36,96], the span of the four voice ranges, it
    repeats every 61 indices, and the number of outputs plays no part.
    Classified without a staff position, the first 12 pitches of each
    run of 61 are BASS, the next 12 TENOR, the next 12 ALTO and the last
    25 SOPRANO. *)
Theorem outputToPitch_range (index totalOutputs : Z) :
  0 <= index ->
  36 <= outputToPitch index totalOutputs <= 96 /\
  outputToPitch index totalOutputs = 36 + index mod 61 /\
  outputToPitch (index + 61) totalOutputs = outputToPitch index totalOutputs /\
  forall duration : Q,
    VoiceClassifier.voice
      (VoiceClassifier.classifyNote
         (detection (inject_Z (outputToPitch index totalOutputs)) duration))
    = if index mod 61 <? 12 then VoiceClassifier.BASS
      else if index mod 61 <? 24 then VoiceClassifier.TENOR
      else if index mod 61 <? 36 then VoiceClassifier.ALTO
      else VoiceClassifier.SOPRANO.
Proof.
  intros Hi.
  assert (Hrem : forall i, 0 <= i ->
            outputToPitch i totalOutputs = 36 + i mod 61).
  { intros i H. unfold outputToPitch. change (96 - 36 + 1) with 61.
    rewrite Z.rem_mod_nonneg by lia. reflexivity. }
  pose proof (Z.mod_pos_bound index 61 ltac:(lia)) as Hm.
  rewrite !Hrem by lia.
  split; [lia|]. split; [reflexivity|]. split.
  - replace (index + 61) with (index + 1 * 61) by ring.
    rewrite Z.mod_add by lia. reflexivity.
  - intros duration.
    set (m := index mod 61) in *.
    destruct (@pitch_bands (detection (inject_Z (36 + m)) duration) eq_refl)
      as (Hs & Ha & Ht & Hb).
    cbn [VoiceClassifier.pitch detection] in Hs, Ha, Ht, Hb.
    change 72%Q with (inject_Z 72) in Hs, Ha.
    change 96%Q with (inject_Z 96) in Hs, Hb.
    change 60%Q with (inject_Z 60) in Ha, Ht.
    change 48%Q with (inject_Z 48) in Ht, Hb.
    rewrite <- !Zle_Qle in Hs. rewrite <- Zle_Qle, <- Zlt_Qlt in Ha.
    rewrite <- Zle_Qle, <- Zlt_Qlt in Ht. rewrite <- !Zlt_Qlt in Hb.
    destruct (m <? 12) eqn:E1; [apply Z.ltb_lt in E1; apply Hb; lia|].
    apply Z.ltb_ge in E1.
    destruct (m <? 24) eqn:E2; [apply Z.ltb_lt in E2; apply Ht; lia|].
    apply Z.ltb_ge in E2.
    destruct (m <? 36) eqn:E3; [apply Z.ltb_lt in E3; apply Ha; lia|].
    apply Z.ltb_ge in E3. apply Hs. lia.
Qed.

Lemma outputToPitch_range_witness :
  36 <= outputToPitch 70 128 <= 96 /\
  outputToPitch 70 128 = 36 + 70 mod 61 /\
  outputToPitch (70 + 61) 128 = outputToPitch 70 128 /\
  forall duration : Q,
    VoiceClassifier.voice
      (VoiceClassifier.classifyNote
         (detection (inject_Z (outputToPitch 70 128)) duration))
    = if 70 mod 61 <? 12 then VoiceClassifier.BASS
      else if 70 mod 61 <? 24 then VoiceClassifier.TENOR
      else if 70 mod 61 <? 36 then VoiceClassifier.ALTO
      else VoiceClassifier.SOPRANO.
Proof. apply (@outputToPitch_range 70 128). lia. Defined.

End PipelinePitch.

Section PipelineDetections.
Import OCRPipeline.
Import VoiceClassifier(DetectedNote).

Lemma detectionsFrom_spec (options : PipelineOptions Q) (total : Z)
    (predictionData : list Q) (i : nat) :
  Forall (detected options) (detectionsFrom options i total predictionData) /\
  List.length (detectionsFrom options i total predictionData)
  = List.length (filter (fun c => Qle_bool (thresholdOf options) c) predictionData).
Proof.
  revert i. induction predictionData as [|c rest IH]; intros i.
  - split; [constructor | reflexivity].
  - destruct (IH (S i)) as (IHF & IHL).
    cbn [detectionsFrom filter].
    change (js_or_else (confidenceThreshold options) (of_Z 1 / of_Z 2)%js <=? c)%js
      with (Qle_bool (thresholdOf options) c).
    destruct (Qle_bool (thresholdOf options) c) eqn:E.
    + split; [|cbn [app List.length]; rewrite IHL; reflexivity].
      constructor; [|exact IHF].
      apply Qle_bool_iff in E.
      repeat split.
      * exists c. split; [reflexivity | exact E].
      * exists (outputToPitch (Z.of_nat i) total). split; [reflexivity|].
        unfold outputToPitch. change (96 - 36 + 1)%Z with 61%Z.
        rewrite Z.rem_mod_nonneg by lia.
        pose proof (Z.mod_pos_bound (Z.of_nat i) 61 ltac:(lia)). lia.
    + split; [exact IHF | exact IHL].
Qed.

Lemma runInference_fold (options : PipelineOptions Q)
    (predictions : list (option (list Q))) (acc : list (DetectedNote Q)) :
  fold_left
    (fun detectedNotes prediction =>
       match prediction with
       | Some predictionData =>
           detectedNotes ++ detectionsOf options predictionData
       | None => detectedNotes
       end)
    predictions acc
  = acc ++ flat_map (fun prediction =>
                       match prediction with
                       | Some predictionData => detectionsOf options predictionData
                       | None => []
                       end) predictions.
Proof.
  revert acc. induction predictions as [|p ps IH]; intros acc; cbn [fold_left flat_map].
  - rewrite app_nil_r. reflexivity.
  - rewrite IH. destruct p; [rewrite app_assoc|]; reflexivity.
Qed.

Lemma runInference_detected (options : PipelineOptions Q)
    (predictions : list (option (list Q))) :
  Forall (detected options) (runInference options predictions).
Proof.
  unfold runInference. rewrite runInference_fold. cbn [app].
  apply Forall_flat_map, Forall_forall. intros [data|] _.
  - apply detectionsFrom_spec.
  - constructor.
Qed.

Lemma detectionsFrom_exact (options : PipelineOptions Q) (total : Z)
    (predictionData : list Q) (i : nat) :
  detectionsFrom options i total predictionData =
  map (detectionAt options)
      (filter (fun ic => Qle_bool (thresholdOf options) (snd ic))
              (combine (seq i (List.length predictionData)) predictionData)).
Proof.
  revert i. induction predictionData as [|c rest IH]; intros i; [reflexivity|].
  cbn [detectionsFrom List.length seq combine filter snd].
  change (js_or_else (confidenceThreshold options) (of_Z 1 / of_Z 2)%js <=? c)%js
    with (Qle_bool (thresholdOf options) c).
  rewrite IH.
  destruct (Qle_bool (thresholdOf options) c); [|reflexivity].
  cbn [map app]. f_equal.
  unfold detectionAt. cbn [fst snd]. f_equal.
  unfold outputToPitch. change (96 - 36 + 1)%Z with 61%Z.
  rewrite Z.rem_mod_nonneg by lia. reflexivity.
Qed.

(** One batch of predictions yields, in the order of the predictions,
    one detection for each confidence that reaches the threshold, 0.5
    when none or 0 is configured, and none for the others.  The detection
    of the confidence at index [i] has that confidence, the pitch
    36 + i mod 61, the configured minimum duration (100 when none or 0 is
    configured) and neither staff position nor timestamp. *)
Theorem detectionsOf_threshold (options : PipelineOptions Q)
    (predictionData : list Q) :
  detectionsOf options predictionData =
  map (detectionAt options)
      (filter (fun ic => Qle_bool (thresholdOf options) (snd ic))
              (combine (seq 0 (List.length predictionData)) predictionData)) /\
  map (@VoiceClassifier.confidence Q) (detectionsOf options predictionData)
  = map Some (filter (Qle_bool (thresholdOf options)) predictionData).
Proof.
  unfold detectionsOf. rewrite detectionsFrom_exact. split; [reflexivity|].
  generalize 0%nat.
  induction predictionData as [|c rest IH]; intros i; [reflexivity|].
  cbn [List.length seq combine filter snd].
  destruct (Qle_bool (thresholdOf options) c); cbn [map]; rewrite IH;
    reflexivity.
Qed.

(** A batch whose prediction fails contributes nothing and costs nothing:
    the detections are those of the batches that succeed, in the order of
    the batches. *)
Theorem runInference_skips_failed (options : PipelineOptions Q)
    (before after : list (option (list Q))) :
  runInference options (before ++ None :: after)
    = runInference options (before ++ after) /\
  runInference options (before ++ after)
    = runInference options before ++ runInference options after /\
  forall data, runInference options [Some data] = detectionsOf options data.
Proof.
  unfold runInference. rewrite !runInference_fold. cbn [app].
  rewrite !flat_map_app. cbn [flat_map app].
  split; [reflexivity|]. split; [reflexivity|].
  intros data. rewrite runInference_fold. cbn [flat_map app].
  apply app_nil_r.
Qed.

End PipelineDetections.

Section PipelineLayout.
Import OCRPipeline.
Import MIDIGenerator.
Import VoiceClassifier(DetectedNote, ClassifiedNote, note).

Lemma layout_nth (d c : Q) (ns : list (ClassifiedNote Q)) :
  Forall (fun n => VoiceClassifier.duration (note n) = d) ns ->
  forall (k : nat) (n : ClassifiedNote Q),
    nth_error ns k = Some n ->
    exists t,
      (t == c + inject_Z (Z.of_nat k) * d)%Q /\
      nth_error (layout c ns) (2 * k) = Some (noteOnAt n t) /\
      nth_error (layout c ns) (S (2 * k)) = Some (noteOffAt n (t + d)%Q).
Proof.
  intros H. revert c. induction H as [|n0 ns Hd _ IH]; intros c k n Hk.
  - destruct k; discriminate.
  - change (layout c (n0 :: ns)) with
      (noteOnAt n0 c :: noteOffAt n0 (c + VoiceClassifier.duration (note n0))%Q
       :: layout (c + VoiceClassifier.duration (note n0))%Q ns).
    rewrite Hd. destruct k as [|k].
    + injection Hk as <-. exists c. cbn [Nat.mul nth_error].
      repeat split. cbn. ring.
    + cbn [nth_error] in Hk.
      destruct (IH (c + d)%Q k n Hk) as (t & Ht & Hon & Hoff).
      exists t. replace (2 * S k)%nat with (S (S (2 * k))) by lia.
      cbn [nth_error]. split; [|split; assumption].
      rewrite Ht, Nat2Z.inj_succ, <- Z.add_1_r, inject_Z_plus. ring.
Qed.

(** End to end: the detections of a run carry no timestamp and all have
    the same duration [d]; when it is not negative, detection number [k],
    counted from 0, gives events number [2k] and [2k+1] of the sequence,
    both of its pitch: the notes sound one after the other, in the order
    the model output them.  In exact arithmetic the NOTE_ON is at [k*d]
    and the NOTE_OFF at [(k+1)*d].  In binary64 the times are the sums
    the cursor runs through, d + ... + d, which need not be the products:
    at a duration of a tenth the seventh NOTE_ON is at
    0.59999999999999998, below 6 * 0.1 = 0.60000000000000009. *)
Theorem pipeline_layout (options : PipelineOptions Q)
    (predictions : list (option (list Q))) :
  (0 <= durationOf options)%Q ->
  let d := durationOf options in
  let detectedNotes := runInference options predictions in
  let s := sequenceOf options detectedNotes in
  List.length (events s) = (2 * List.length detectedNotes)%nat /\
  (forall (k : nat) (det : DetectedNote Q),
    nth_error detectedNotes k = Some det ->
    exists on off,
      nth_error (events s) (2 * k) = Some on /\
      nth_error (events s) (S (2 * k)) = Some off /\
      type on = noteOn /\ type off = noteOff /\
      pitch on = VoiceClassifier.pitch det /\
      pitch off = VoiceClassifier.pitch det /\
      (time on == inject_Z (Z.of_nat k) * d)%Q /\
      (time off == inject_Z (Z.of_nat k + 1) * d)%Q) /\
  nth_error
    (map (fun e => (type e, time e))
       (events (sequenceOf tenth_options
                  (runInference tenth_options seven_predictions)))) 12
  = Some (noteOn, tenth + tenth + tenth + tenth + tenth + tenth)%float /\
  (tenth + tenth + tenth + tenth + tenth + tenth <? 6 * tenth)%float = true.
Proof.
  intros Hd d detectedNotes s.
  set (notes := VoiceClassifier.classifyNotes detectedNotes).
  pose proof (runInference_detected options predictions) as Hdet.
  fold detectedNotes in Hdet.
  assert (Hdur : Forall (fun n => VoiceClassifier.duration (note n) = d) notes).
  { subst notes. unfold VoiceClassifier.classifyNotes.
    apply Forall_map. eapply Forall_impl; [|exact Hdet].
    intros det (_ & _ & Hdd & _). exact Hdd. }
  assert (Hts : Forall (fun n => VoiceClassifier.timestamp (note n) = None) notes).
  { subst notes. unfold VoiceClassifier.classifyNotes.
    apply Forall_map. eapply Forall_impl; [|exact Hdet].
    intros det (_ & _ & _ & _ & Ht). exact Ht. }
  assert (Hsorted : sortedNotes notes = notes).
  { apply (Array_sort_sorted_id timestampKey (l := notes)).
    apply untimed_sorted, Hts. }
  assert (Hev : events s = layout 0%Q notes).
  { subst s. unfold sequenceOf, generateSequence. cbn [events]. fold notes.
    rewrite generateLoop_events, Hsorted.
    apply (Array_sort_sorted_id (@time Q)). apply layout_sorted.
    eapply Forall_impl; [|exact Hdur].
    intros n Hn. unfold nonNegative. rewrite Hn. exact Hd. }
  split; [|split; [|split; vm_compute; reflexivity]].
  - rewrite Hev, layout_length. subst notes.
    unfold VoiceClassifier.classifyNotes. rewrite length_map. reflexivity.
  - intros k det Hk.
    assert (Hn : nth_error notes k = Some (VoiceClassifier.classifyNote det)).
    { subst notes. unfold VoiceClassifier.classifyNotes.
      rewrite nth_error_map, Hk. reflexivity. }
    destruct (layout_nth 0%Q Hdur k Hn) as (t & Ht & Hon & Hoff).
    rewrite Hev. eexists. eexists.
    split; [exact Hon|]. split; [exact Hoff|].
    cbn [type pitch time noteOnAt noteOffAt].
    repeat split.
    + rewrite Ht. ring.
    + rewrite Ht, inject_Z_plus. ring.
Qed.

Lemma pipeline_layout_witness :
  let d := durationOf default_options in
  let detectedNotes := runInference default_options three_batches in
  let s := sequenceOf default_options detectedNotes in
  List.length (events s) = (2 * List.length detectedNotes)%nat /\
  (forall (k : nat) (det : DetectedNote Q),
    nth_error detectedNotes k = Some det ->
    exists on off,
      nth_error (events s) (2 * k) = Some on /\
      nth_error (events s) (S (2 * k)) = Some off /\
      type on = noteOn /\ type off = noteOff /\
      pitch on = VoiceClassifier.pitch det /\
      pitch off = VoiceClassifier.pitch det /\
      (time on == inject_Z (Z.of_nat k) * d)%Q /\
      (time off == inject_Z (Z.of_nat k + 1) * d)%Q) /\
  nth_error
    (map (fun e => (type e, time e))
       (events (sequenceOf tenth_options
                  (runInference tenth_options seven_predictions)))) 12
  = Some (noteOn, tenth + tenth + tenth + tenth + tenth + tenth)%float /\
  (tenth + tenth + tenth + tenth + tenth + tenth <? 6 * tenth)%float = true.
Proof.
  apply (@pipeline_layout default_options three_batches).
  cbn. lra.
Defined.

End PipelineLayout.

(** ** Patches: filtering and batching *)

Section PatchBatches.
Import ImagePreprocessor.
Context {N : Type} {JSN : JSNumber N} {Tensor : Type}.

Lemma slice_firstn (i batchSize : nat) (patches : list (ImagePatch N Tensor)) :
  (i < List.length patches)%nat ->
  slice i (Nat.min (i + batchSize) (List.length patches)) patches
  = firstn batchSize (skipn i patches).
Proof.
  intros Hi. unfold slice.
  destruct (Nat.le_gt_cases (i + batchSize) (List.length patches)) as [H | H].
  - rewrite Nat.min_l by lia. f_equal. lia.
  - rewrite Nat.min_r by lia.
    rewrite !firstn_all2; [reflexivity | |]; rewrite length_skipn; lia.
Qed.

Lemma batchLoop_spec (batchSize : nat) (patches : list (ImagePatch N Tensor)) :
  (1 <= batchSize)%nat ->
  forall (fuel i : nat) (batches : list (list Tensor)),
    (List.length patches - i <= fuel)%nat ->
    Forall (fun b => 1 <= List.length b <= batchSize)%nat batches ->
    List.concat (batchLoop fuel i batchSize patches batches)
      = List.concat batches ++ map (@data N Tensor) (skipn i patches) /\
    Forall (fun b => 1 <= List.length b <= batchSize)%nat
           (batchLoop fuel i batchSize patches batches).
Proof.
  intros Hbs. induction fuel as [|fuel IH]; intros i batches Hfuel Hacc.
  - cbn [batchLoop]. rewrite skipn_all2 by lia. cbn [map].
    rewrite app_nil_r. split; [reflexivity | exact Hacc].
  - cbn [batchLoop].
    destruct (i <? List.length patches)%nat eqn:E.
    + apply Nat.ltb_lt in E. rewrite slice_firstn by exact E.
      destruct (IH (i + batchSize)%nat
                  (batches ++ [map (@data N Tensor)
                                 (firstn batchSize (skipn i patches))]))
        as (Hc & Hf).
      * lia.
      * apply Forall_app. split; [exact Hacc|].
        constructor; [|constructor].
        rewrite length_map, length_firstn, length_skipn. lia.
      * split; [|exact Hf].
        rewrite Hc, concat_app. cbn [List.concat]. rewrite app_nil_r, <- app_assoc.
        f_equal. rewrite <- map_app. f_equal.
        rewrite Nat.add_comm, <- skipn_skipn. apply firstn_skipn.
    + apply Nat.ltb_ge in E. rewrite skipn_all2 by lia. cbn [map].
      rewrite app_nil_r. split; [reflexivity | exact Hacc].
Qed.

(** For a batch size of at least 1, the batches hold the tensors of all
    the patches, each once and in order, and every batch holds at least
    one tensor and at most the batch size.  The patches handed to the
    model are those that reach the confidence threshold: batching what
    [filterPatches] keeps drops nothing and adds nothing. *)
Theorem batchPatches_covers (patches : list (ImagePatch N Tensor))
    (batchSize : nat) :
  (1 <= batchSize)%nat ->
  List.concat (batchPatches patches batchSize) = map (@data N Tensor) patches /\
  Forall (fun b => 1 <= List.length b <= batchSize)%nat
         (batchPatches patches batchSize) /\
  forall threshold : N,
    List.concat (batchPatches (filterPatches patches threshold) batchSize)
    = map (@data N Tensor)
        (filter (fun p => num_leb threshold (confidence p)) patches).
Proof.
  intros Hbs.
  assert (H : forall ps : list (ImagePatch N Tensor),
            List.concat (batchPatches ps batchSize) = map (@data N Tensor) ps /\
            Forall (fun b => 1 <= List.length b <= batchSize)%nat
                   (batchPatches ps batchSize)).
  { intros ps. unfold batchPatches.
    destruct (@batchLoop_spec batchSize ps Hbs (List.length ps) 0%nat [])
      as (Hc & Hf); [lia | constructor |].
    split; [exact Hc | exact Hf]. }
  split; [apply H|]. split; [apply H|].
  intros threshold. apply H.
Qed.

End PatchBatches.

Section PatchBatchesWitness.
Import ImagePreprocessor.

Lemma batchPatches_covers_witness :
  let patches : list (ImagePatch Q nat) :=
    [ {| data := 1%nat; x := 0%Q; y := 0%Q; confidence := 9 # 10 |};
      {| data := 2%nat; x := 12%Q; y := 0%Q; confidence := 2 # 10 |};
      {| data := 3%nat; x := 24%Q; y := 0%Q; confidence := 6 # 10 |} ] in
  List.concat (batchPatches patches 2) = map (@data Q nat) patches /\
  Forall (fun b => 1 <= List.length b <= 2)%nat (batchPatches patches 2) /\
  forall threshold : Q,
    List.concat (batchPatches (filterPatches patches threshold) 2)
    = map (@data Q nat)
        (filter (fun p => num_leb threshold (confidence p)) patches).
Proof.
  apply (@batchPatches_covers Q _ nat
           [ {| data := 1%nat; x := 0%Q; y := 0%Q; confidence := 9 # 10 |};
             {| data := 2%nat; x := 12%Q; y := 0%Q; confidence := 2 # 10 |};
             {| data := 3%nat; x := 24%Q; y := 0%Q; confidence := 6 # 10 |} ]
           2).
  lia.
Defined.

End PatchBatchesWitness.

(** ** Player: voice configurations *)

Section PlayerVoices.
Import SoundFontPlayer.
Import VoiceClassifier(Voice, SOPRANO, ALTO, TENOR, BASS, sameVoice).

Lemma sameVoice_refl (v : Voice) : sameVoice v v = true.
Proof. destruct v; reflexivity. Qed.

Lemma sameVoice_neq (v w : Voice) : v <> w -> sameVoice v w = false.
Proof. destruct v, w; intros H; try reflexivity; congruence. Qed.

Lemma mapSet_same (configs : VoiceConfigs) (v : Voice) (c : VoiceConfig) :
  mapSet configs v c v = Some c.
Proof. unfold mapSet. rewrite sameVoice_refl. reflexivity. Qed.

Lemma mapSet_other (configs : VoiceConfigs) (v w : Voice) (c : VoiceConfig) :
  v <> w -> mapSet configs v c w = configs w.
Proof. intros H. unfold mapSet. rewrite sameVoice_neq by exact H. reflexivity. Qed.

Lemma toggleVoiceMute_some (configs : VoiceConfigs) (v : Voice) (c : VoiceConfig) :
  configs v = Some c ->
  toggleVoiceMute configs v =
  (mapSet configs v (withMuted (negb (flag (isMuted c))) c),
   negb (flag (isMuted c))).
Proof. intros E. unfold toggleVoiceMute. rewrite E. reflexivity. Qed.

Lemma initializeVoiceConfigs_all (v : Voice) :
  initializeVoiceConfigs v =
  Some {| voice := v; instrument := Some (voiceInstruments v);
          volume := Some 0%Q; isMuted := Some false |}.
Proof. destruct v; reflexivity. Qed.

(** The mute flag of a configured voice: muting sets it and unmuting
    clears it, toggling inverts it and returns the new value, so that
    toggling twice restores it; none of the three touches the flag of
    another voice or any volume. *)
Theorem voice_mute_flags (configs : VoiceConfigs) (v : Voice) :
  configs v <> None ->
  isVoiceMuted (muteVoice configs v) v = true /\
  isVoiceMuted (unmuteVoice configs v) v = false /\
  snd (toggleVoiceMute configs v) = negb (isVoiceMuted configs v) /\
  isVoiceMuted (fst (toggleVoiceMute configs v)) v
    = negb (isVoiceMuted configs v) /\
  isVoiceMuted (fst (toggleVoiceMute (fst (toggleVoiceMute configs v)) v)) v
    = isVoiceMuted configs v /\
  (forall w, w <> v ->
     isVoiceMuted (muteVoice configs v) w = isVoiceMuted configs w /\
     isVoiceMuted (unmuteVoice configs v) w = isVoiceMuted configs w /\
     isVoiceMuted (fst (toggleVoiceMute configs v)) w = isVoiceMuted configs w) /\
  (forall w,
     getVoiceVolume (muteVoice configs v) w = getVoiceVolume configs w /\
     getVoiceVolume (unmuteVoice configs v) w = getVoiceVolume configs w /\
     getVoiceVolume (fst (toggleVoiceMute configs v)) w
       = getVoiceVolume configs w).
Proof.
  intros Hc.
  destruct (configs v) as [c|] eqn:E; [clear Hc | congruence].
  pose proof (toggleVoiceMute_some configs v E) as Ht.
  pose proof (toggleVoiceMute_some (fst (toggleVoiceMute configs v)) v) as Ht2.
  rewrite Ht in Ht2. cbn [fst] in Ht2.
  specialize (Ht2 _ (mapSet_same _ _ _)).
  unfold isVoiceMuted at 1 2 3 4 5 6 7.
  unfold muteVoice, unmuteVoice.
  rewrite Ht. cbn [fst snd]. rewrite Ht2. cbn [fst snd].
  rewrite E, !mapSet_same.
  cbn [isMuted withMuted flag].
  split; [reflexivity|]. split; [reflexivity|]. split; [reflexivity|].
  split; [destruct (flag (isMuted c)); reflexivity|].
  split; [destruct (flag (isMuted c)); reflexivity|].
  split.
  - intros w Hw. unfold isVoiceMuted.
    rewrite !mapSet_other by congruence. auto.
  - intros w. unfold getVoiceVolume.
    destruct (sameVoice v w) eqn:Ew.
    + apply sameVoice_true in Ew. subst w. rewrite !mapSet_same, E. auto.
    + assert (Hw : v <> w) by (intros ->; rewrite sameVoice_refl in Ew; discriminate).
      rewrite !mapSet_other by exact Hw. auto.
Qed.

Lemma voice_mute_flags_witness :
  isVoiceMuted (muteVoice initializeVoiceConfigs ALTO) ALTO = true /\
  isVoiceMuted (unmuteVoice initializeVoiceConfigs ALTO) ALTO = false /\
  snd (toggleVoiceMute initializeVoiceConfigs ALTO)
    = negb (isVoiceMuted initializeVoiceConfigs ALTO) /\
  isVoiceMuted (fst (toggleVoiceMute initializeVoiceConfigs ALTO)) ALTO
    = negb (isVoiceMuted initializeVoiceConfigs ALTO) /\
  isVoiceMuted
    (fst (toggleVoiceMute (fst (toggleVoiceMute initializeVoiceConfigs ALTO))
            ALTO)) ALTO
    = isVoiceMuted initializeVoiceConfigs ALTO /\
  (forall w, w <> ALTO ->
     isVoiceMuted (muteVoice initializeVoiceConfigs ALTO) w
       = isVoiceMuted initializeVoiceConfigs w /\
     isVoiceMuted (unmuteVoice initializeVoiceConfigs ALTO) w
       = isVoiceMuted initializeVoiceConfigs w /\
     isVoiceMuted (fst (toggleVoiceMute initializeVoiceConfigs ALTO)) w
       = isVoiceMuted initializeVoiceConfigs w) /\
  (forall w,
     getVoiceVolume (muteVoice initializeVoiceConfigs ALTO) w
       = getVoiceVolume initializeVoiceConfigs w /\
     getVoiceVolume (unmuteVoice initializeVoiceConfigs ALTO) w
       = getVoiceVolume initializeVoiceConfigs w /\
     getVoiceVolume (fst (toggleVoiceMute initializeVoiceConfigs ALTO)) w
       = getVoiceVolume initializeVoiceConfigs w).
Proof.
  apply (@voice_mute_flags initializeVoiceConfigs ALTO).
  discriminate.
Defined.

(** A volume is stored clamped to [0,1]: what is read back is 0 for a
    volume below 0, 1 for one above 1, and the volume itself in between.
    Setting it leaves the mute flags and the other volumes alone. *)
Theorem setVoiceVolume_clamps (configs : VoiceConfigs) (v : Voice) (x : Q) :
  configs v <> None ->
  let configs' := setVoiceVolume configs v x in
  (0 <= getVoiceVolume configs' v <= 1)%Q /\
  ((x <= 0)%Q -> (getVoiceVolume configs' v == 0)%Q) /\
  ((0 <= x <= 1)%Q -> (getVoiceVolume configs' v == x)%Q) /\
  ((1 <= x)%Q -> (getVoiceVolume configs' v == 1)%Q) /\
  (forall w, isVoiceMuted configs' w = isVoiceMuted configs w) /\
  (forall w, w <> v -> getVoiceVolume configs' w = getVoiceVolume configs w).
Proof.
  intros Hc configs'. subst configs'.
  unfold setVoiceVolume, getVoiceVolume, isVoiceMuted, mapSet.
  destruct (configs v) as [c|] eqn:E; [clear Hc | congruence].
  rewrite sameVoice_refl. cbn [volume withVolume js_or_else].
  assert (Hclamp : (0 <= Math_max 0 (Math_min 1 x) <= 1)%Q /\
            ((x <= 0)%Q -> (Math_max 0 (Math_min 1 x) == 0)%Q) /\
            ((0 <= x <= 1)%Q -> (Math_max 0 (Math_min 1 x) == x)%Q) /\
            ((1 <= x)%Q -> (Math_max 0 (Math_min 1 x) == 1)%Q)).
  { unfold Math_max, Math_min.
    destruct (Qle_bool 1 x) eqn:E1;
      [apply Qle_bool_iff in E1
      |apply not_true_iff_false in E1; rewrite Qle_bool_iff in E1];
    match goal with
    | |- context [Qle_bool 0 ?y] =>
        destruct (Qle_bool 0 y) eqn:E0;
        [apply Qle_bool_iff in E0
        |apply not_true_iff_false in E0; rewrite Qle_bool_iff in E0]
    end;
    repeat split; intros; lra. }
  assert (Hread : ((if truthy (Math_max 0 (Math_min 1 x))
                    then Math_max 0 (Math_min 1 x) else 0%Q)
                   == Math_max 0 (Math_min 1 x))%Q).
  { cbn [truthy Q_JSNumber].
    destruct (Qeq_bool (Math_max 0 (Math_min 1 x)) 0) eqn:Ez; cbn [negb];
      [apply Qeq_bool_iff in Ez; symmetry; exact Ez | reflexivity]. }
  destruct Hclamp as (H01 & Hlow & Hmid & Hhigh).
  rewrite Hread. repeat split; try tauto.
  - intros w. destruct (sameVoice v w) eqn:Ew; [|reflexivity].
    apply sameVoice_true in Ew. subst w. rewrite E. reflexivity.
  - intros w Hw. rewrite sameVoice_neq by congruence. reflexivity.
Qed.

Lemma setVoiceVolume_clamps_witness :
  let configs' := setVoiceVolume initializeVoiceConfigs TENOR (3 # 2) in
  (0 <= getVoiceVolume configs' TENOR <= 1)%Q /\
  ((3 # 2 <= 0)%Q -> (getVoiceVolume configs' TENOR == 0)%Q) /\
  ((0 <= 3 # 2 <= 1)%Q -> (getVoiceVolume configs' TENOR == 3 # 2)%Q) /\
  ((1 <= 3 # 2)%Q -> (getVoiceVolume configs' TENOR == 1)%Q) /\
  (forall w, isVoiceMuted configs' w = isVoiceMuted initializeVoiceConfigs w) /\
  (forall w, w <> TENOR ->
     getVoiceVolume configs' w = getVoiceVolume initializeVoiceConfigs w).
Proof.
  apply (@setVoiceVolume_clamps initializeVoiceConfigs TENOR (3 # 2)).
  discriminate.
Defined.

(** The player reads a channel back as the voice the generator gave it:
    the configuration found for the channel of a voice is that of the
    voice, and no configuration is found for a channel other than 0, 1,
    2 and 3. *)
Theorem getVoiceConfigByChannel_voice (configs : VoiceConfigs) :
  (forall v,
     getVoiceConfigByChannel configs (MIDIGenerator.getChannelForVoice (N := Q) v)
     = configs v) /\
  (forall channel : Q,
     ~ (channel == 0)%Q -> ~ (channel == 1)%Q ->
     ~ (channel == 2)%Q -> ~ (channel == 3)%Q ->
     getVoiceConfigByChannel configs channel = None).
Proof.
  split.
  - intros v. destruct v; reflexivity.
  - intros channel H0 H1 H2 H3.
    unfold getVoiceConfigByChannel, channelToVoice. cbn [find fst].
    rewrite <- Qeq_bool_iff in H0, H1, H2, H3.
    apply not_true_is_false in H0, H1, H2, H3.
    change (inject_Z 0) with 0%Q. change (inject_Z 1) with 1%Q.
    change (inject_Z 2) with 2%Q. change (inject_Z 3) with 3%Q.
    rewrite H0, H1, H2, H3. reflexivity.
Qed.

End PlayerVoices.
